(** * Verification of the xlang stress benchmark and of the campaigns
      code-host connection resolver

    The development embeds three pieces of the repository:

    - [BenchmarkStress] and [doStressTestOpForPosition] (package
      [xlang_test]): the enumeration of character positions, the handshake,
      the concurrent position queries and the error reporting;
    - the session registry and idle reaper of the proxy, which live in
      package [xlang] and are described by the specification only;
    - [campaignsCodeHostConnectionResolver] (package [resolvers]): the
      memoised [compute] and the three GraphQL methods built on it.

    Go values are embedded as follows: [int] is a [Z] (wrap-around written
    out where the code does arithmetic on caller-supplied values), a byte
    slice is a [list byte], a [string] is a [string] of bytes, a pointer that
    may be nil is an [option], a Go map is a [gmap]. *)

From Stdlib Require Import ZArith List Ascii Bool Lia.
From Stdlib.Strings Require Import Byte.
From stdpp Require Import gmap strings list fin_maps.

Local Open Scope Z_scope.

(** ** Go runtime pieces used by the embedded code *)

Module Go.

(** 64-bit two's complement [int]. *)
Definition wrap64 (z : Z) : Z := (z + 2 ^ 63) mod 2 ^ 64 - 2 ^ 63.
Definition int_add (a b : Z) : Z := wrap64 (a + b).
Definition int_sub (a b : Z) : Z := wrap64 (a - b).
Definition is_int (z : Z) : Prop := - 2 ^ 63 <= z < 2 ^ 63.

(** [len(s)] for a slice. *)
Definition len {A} (l : list A) : Z := Z.of_nat (length l).

(** A slice expression [s[lo:hi]] on a slice whose capacity equals its
    length: it panics ([None]) unless [0 <= lo <= hi <= len(s)]. *)
Definition slice {A} (l : list A) (lo hi : Z) : option (list A) :=
  if (0 <=? lo) && (lo <=? hi) && (hi <=? len l)
  then Some (take (Z.to_nat (hi - lo)) (drop (Z.to_nat lo) l))
  else None.

(** [strings.HasPrefix] and [strings.Contains] on byte strings. *)
Fixpoint HasPrefix (s prefix : string) : bool :=
  match prefix, s with
  | EmptyString, _ => true
  | String _ _, EmptyString => false
  | String a p', String b s' => if Ascii.eqb a b then HasPrefix s' p' else false
  end.

Fixpoint Contains (s substr : string) : bool :=
  HasPrefix s substr ||
  match s with
  | EmptyString => false
  | String _ s' => Contains s' substr
  end.

(** [strconv.Itoa]. *)
Definition digit (d : Z) : ascii := ascii_of_nat (48 + Z.to_nat d).

Fixpoint utoa (fuel : nat) (n : Z) (acc : string) : string :=
  match fuel with
  | O => acc
  | S f =>
      let acc' := String (digit (n mod 10)) acc in
      if n <? 10 then acc' else utoa f (n / 10) acc'
  end.

Definition Itoa (n : Z) : string :=
  if n <? 0
  then String "-"%char (utoa (S (Z.to_nat (Z.log2 (- n)))) (- n) EmptyString)
  else utoa (S (Z.to_nat (Z.log2 n))) n EmptyString.

End Go.

(** ** Package [unicode/utf8]: what [range] over a string decodes *)

Module utf8.

Definition RuneError : Z := 0xFFFD.
Definition MaxRune : Z := 0x10FFFF.
Definition surrogateMin : Z := 0xD800.
Definition surrogateMax : Z := 0xDFFF.

Definition maskx : Z := 0x3F.
Definition mask2 : Z := 0x1F.
Definition mask3 : Z := 0x0F.
Definition mask4 : Z := 0x07.

Definition locb : Z := 0x80.
Definition hicb : Z := 0xBF.

Definition xx : Z := 0xF1.
Definition as_ : Z := 0xF0.
Definition s1 : Z := 0x02.
Definition s2 : Z := 0x13.
Definition s3 : Z := 0x03.
Definition s4 : Z := 0x23.
Definition s5 : Z := 0x34.
Definition s6 : Z := 0x04.
Definition s7 : Z := 0x44.

(** The table [first], indexed by the leading byte. *)
Definition first (b : Z) : Z :=
  if b <? 0x80 then as_
  else if b <? 0xC2 then xx
  else if b <? 0xE0 then s1
  else if b =? 0xE0 then s2
  else if b <? 0xED then s3
  else if b =? 0xED then s4
  else if b <? 0xF0 then s3
  else if b =? 0xF0 then s5
  else if b <? 0xF4 then s6
  else if b =? 0xF4 then s7
  else xx.

Record acceptRange := { lo : Z; hi : Z }.

Definition acceptRanges (i : Z) : acceptRange :=
  if i =? 0 then {| lo := locb; hi := hicb |}
  else if i =? 1 then {| lo := 0xA0; hi := hicb |}
  else if i =? 2 then {| lo := locb; hi := 0x9F |}
  else if i =? 3 then {| lo := 0x90; hi := hicb |}
  else if i =? 4 then {| lo := locb; hi := 0x8F |}
  else {| lo := 0; hi := 0 |}.

Definition byteZ (b : byte) : Z := Z.of_N (Byte.to_N b).

Definition outside (a : acceptRange) (b : Z) : bool :=
  (b <? lo a) || (hi a <? b).

Definition cont : acceptRange := {| lo := locb; hi := hicb |}.

(** [DecodeRuneInString]: the rune at the head of [s] and its width in
    bytes; an invalid encoding yields [(RuneError, 1)]. *)
Definition DecodeRune (s : list byte) : Z * nat :=
  match s with
  | [] => (RuneError, 0%nat)
  | b0 :: t =>
      let s0 := byteZ b0 in
      let x := first s0 in
      if as_ <=? x then
        ((if x =? xx then RuneError else s0), 1%nat)
      else
        let sz := Z.to_nat (Z.land x 7) in
        let accept := acceptRanges (Z.shiftr x 4) in
        if (length s <? sz)%nat then (RuneError, 1%nat)
        else
          match t with
          | [] => (RuneError, 1%nat)
          | b1 :: t1 =>
              let c1 := byteZ b1 in
              if outside accept c1 then (RuneError, 1%nat)
              else if (sz <=? 2)%nat then
                (Z.lor (Z.shiftl (Z.land s0 mask2) 6) (Z.land c1 maskx), 2%nat)
              else
                match t1 with
                | [] => (RuneError, 1%nat)
                | b2 :: t2 =>
                    let c2 := byteZ b2 in
                    if outside cont c2 then (RuneError, 1%nat)
                    else if (sz <=? 3)%nat then
                      (Z.lor (Z.lor (Z.shiftl (Z.land s0 mask3) 12)
                                    (Z.shiftl (Z.land c1 maskx) 6))
                             (Z.land c2 maskx), 3%nat)
                    else
                      match t2 with
                      | [] => (RuneError, 1%nat)
                      | b3 :: _ =>
                          let c3 := byteZ b3 in
                          if outside cont c3 then (RuneError, 1%nat)
                          else
                            (Z.lor (Z.lor (Z.lor (Z.shiftl (Z.land s0 mask4) 18)
                                                 (Z.shiftl (Z.land c1 maskx) 12))
                                          (Z.shiftl (Z.land c2 maskx) 6))
                                   (Z.land c3 maskx), 4%nat)
                      end
                end
          end
  end.

Definition byte_of_Z (z : Z) : byte :=
  match Byte.of_N (Z.to_N (z mod 256)) with
  | Some b => b
  | None => x00
  end.

(** [string(r)] for a rune [r] ([utf8.AppendRune] on an empty slice):
    runes out of range and surrogates are encoded as [RuneError]. *)
Definition encode3 (r : Z) : list byte :=
  [ byte_of_Z (Z.lor 0xE0 (Z.shiftr r 12));
    byte_of_Z (Z.lor 0x80 (Z.land (Z.shiftr r 6) maskx));
    byte_of_Z (Z.lor 0x80 (Z.land r maskx)) ].

Definition EncodeRune (r : Z) : list byte :=
  if (0 <=? r) && (r <=? 0x7F) then [ byte_of_Z r ]
  else if (0 <=? r) && (r <=? 0x7FF) then
    [ byte_of_Z (Z.lor 0xC0 (Z.shiftr r 6));
      byte_of_Z (Z.lor 0x80 (Z.land r maskx)) ]
  else if (r <? 0) || (MaxRune <? r)
          || ((surrogateMin <=? r) && (r <=? surrogateMax)) then
    encode3 RuneError
  else if r <=? 0xFFFF then encode3 r
  else
    [ byte_of_Z (Z.lor 0xF0 (Z.shiftr r 18));
      byte_of_Z (Z.lor 0x80 (Z.land (Z.shiftr r 12) maskx));
      byte_of_Z (Z.lor 0x80 (Z.land (Z.shiftr r 6) maskx));
      byte_of_Z (Z.lor 0x80 (Z.land r maskx)) ].

(** [for i, r := range s]: the successive (byte index, rune) pairs. The
    fuel is the number of bytes left, which every iteration decreases. *)
Fixpoint range_from (fuel : nat) (i : Z) (s : list byte) : list (Z * Z) :=
  match fuel with
  | O => []
  | S f =>
      match s with
      | [] => []
      | _ :: _ =>
          let '(r, sz) := DecodeRune s in
          (i, r) :: range_from f (i + Z.of_nat sz) (drop sz s)
      end
  end.

Definition range_string (s : list byte) : list (Z * Z) :=
  range_from (length s) 0 s.

End utf8.


(** ** Package [xlang_test]: the stress benchmark *)

Module Stress.

Import utf8.

(** *** Enumeration of character positions *)

Definition maxFiles : Z := 10.
Definition maxPos : Z := 10.

Fixpoint bytes_eqb (a b : list byte) : bool :=
  match a, b with
  | [], [] => true
  | x :: a', y :: b' => Byte.eqb x y && bytes_eqb a' b'
  | _, _ => false
  end.

(** The line feed, as the byte string ["\n"]. *)
Definition newline : list byte := [x0a].

(** The body of [for i, r := range string(contentsBytes)], over the
    pairs produced by the [range] clause; [acc] is
    [allFileCharPos[path]]. *)
Fixpoint charPosLoop (rs : list (Z * Z)) (line character : Z)
    (acc : list (Z * Z)) : list (Z * Z) :=
  match rs with
  | [] => acc
  | (i, r) :: rs' =>
      if maxPos <=? i then acc
      else
        let acc' := acc ++ [(line, character)] in
        if bytes_eqb (EncodeRune r) newline
        then charPosLoop rs' (line + 1) 0 acc'
        else charPosLoop rs' line (character + 1) acc'
  end.

Definition fileCharPos (contentsBytes : list byte) : list (Z * Z) :=
  charPosLoop (range_string contentsBytes) 0 0 [].

(** The loop over the sorted file names. *)
Fixpoint filesLoop (filenames : list string)
    (allFiles : gmap string (list byte)) (maxFiles : Z)
    (allFileCharPos : gmap string (list (Z * Z)))
    : gmap string (list (Z * Z)) :=
  match filenames with
  | [] => allFileCharPos
  | path :: rest =>
      let maxFiles := maxFiles - 1 in
      if maxFiles <? 0 then allFileCharPos
      else
        let contentsBytes := default [] (allFiles !! path) in
        filesLoop rest allFiles maxFiles
          (<[path := fileCharPos contentsBytes]> allFileCharPos)
  end.

Definition allFileCharPos (filenames : list string)
    (allFiles : gmap string (list byte)) : gmap string (list (Z * Z)) :=
  filesLoop filenames allFiles maxFiles ∅.

(** *** Requests on a client connection *)

(** Modelled from the spec: package [xlang/uri] is missing. A workspace
    root is a URI encoding host, path and revision, written
    [scheme://host/path?revision]; [WithFilePath] names a file of the
    workspace in the fragment. *)
Record URI := mkURI {
  Scheme : string; Host : string; Path : string;
  Rev : string; FilePath : string }.

Definition URI_String (u : URI) : string :=
  Scheme u +:+ "://" +:+ Host u +:+ Path u
    +:+ (if String.eqb (Rev u) "" then "" else "?" +:+ Rev u)
    +:+ (if String.eqb (FilePath u) "" then "" else "#" +:+ FilePath u).

Definition WithFilePath (u : URI) (p : string) : URI :=
  mkURI (Scheme u) (Host u) (Path u) (Rev u) p.

Inductive Params :=
| ClientProxyInitializeParams (RootPath Mode : string)
| TextDocumentPositionParams (TextDocumentURI : string) (Line Character : Z).

Record Request := mkRequest { req_method : string; req_params : Params }.

Definition methods : list string :=
  [ "textDocument/definition"; "textDocument/hover"; "textDocument/references" ].

(** *** [doStressTestOpForPosition] as a transition system

    The main goroutine spawns one goroutine per method and then waits;
    each goroutine issues its call, receives the reply, records an error
    with [par.Error] and releases its slot. [parallel.Run] is the
    external package [github.com/neelance/parallel]: [Acquire] takes one
    of [maxPar] slots, [Release] frees it, [Error] keeps the first error
    it is given and [Wait] returns that error once every slot is free. *)

Record Run := mkRun { maxPar : nat; inUse : nat; runErr : option string }.

Definition NewRun (n : nat) : Run := mkRun n 0 None.

Definition Run_Error (par : Run) (err : string) : Run :=
  match runErr par with
  | None => mkRun (maxPar par) (inUse par) (Some err)
  | Some _ => par
  end.

Inductive goroutine :=
| GNotStarted
| GReady
| GCalling
| GGot (err : option string)
| GReported (err : string)
| GDone (err : option string).

Inductive mainpc :=
| MLoop (k : nat)
| MReturned (err : option string).

Record opstate := mkOp {
  op_params : Params;
  op_pc : mainpc;
  op_gs : list goroutine;
  op_par : Run }.

Inductive event :=
| EvMain
| EvCall (k : nat)
| EvReply (k : nat) (err : option string)
| EvError (k : nat)
| EvRelease (k : nat).

(** [fmt.Errorf("%s: %s", method, err)] *)
Definition tagged (method err : string) : string := method +:+ ": " +:+ err.

Definition op_init (root : URI) (path : string) (line character : Z) : opstate :=
  mkOp (TextDocumentPositionParams
          (URI_String (WithFilePath root path)) line character)
       (MLoop 0)
       (replicate (length methods) GNotStarted)
       (NewRun (length methods)).

(** One step of the thread named by the event; [None] when that thread
    cannot move. The second component is what the step sends on the
    connection. *)
Definition op_step (ev : event) (st : opstate) : option (opstate * list Request) :=
  let '(mkOp params pc gs par) := st in
  match ev with
  | EvMain =>
      match pc with
      | MLoop k =>
          match methods !! k with
          | Some _ =>
              if (inUse par <? maxPar par)%nat
              then Some (mkOp params (MLoop (S k)) (<[k := GReady]> gs)
                           (mkRun (maxPar par) (S (inUse par)) (runErr par)), [])
              else None
          | None =>
              if (inUse par =? 0)%nat
              then Some (mkOp params (MReturned (runErr par)) gs par, [])
              else None
          end
      | MReturned _ => None
      end
  | EvCall k =>
      match gs !! k, methods !! k with
      | Some GReady, Some method =>
          Some (mkOp params pc (<[k := GCalling]> gs) par,
                [mkRequest method params])
      | _, _ => None
      end
  | EvReply k err =>
      match gs !! k with
      | Some GCalling => Some (mkOp params pc (<[k := GGot err]> gs) par, [])
      | _ => None
      end
  | EvError k =>
      match gs !! k, methods !! k with
      | Some (GGot (Some err)), Some method =>
          Some (mkOp params pc (<[k := GReported err]> gs)
                  (Run_Error par (tagged method err)), [])
      | _, _ => None
      end
  | EvRelease k =>
      match gs !! k with
      | Some (GGot None) =>
          Some (mkOp params pc (<[k := GDone None]> gs)
                  (mkRun (maxPar par) (pred (inUse par)) (runErr par)), [])
      | Some (GReported err) =>
          Some (mkOp params pc (<[k := GDone (Some err)]> gs)
                  (mkRun (maxPar par) (pred (inUse par)) (runErr par)), [])
      | _ => None
      end
  end.


(** The schedule in which the goroutines run one after the other. *)
Definition goroutine_events (k : nat) (reply : option string) : list event :=
  [EvCall k; EvReply k reply]
    ++ match reply with Some _ => [EvError k] | None => [] end
    ++ [EvRelease k].

Definition sequential (r0 r1 r2 : option string) : list event :=
  [EvMain; EvMain; EvMain]
    ++ goroutine_events 0 r0 ++ goroutine_events 1 r1 ++ goroutine_events 2 r2
    ++ [EvMain].

(** The reply goroutine [k] received, once it has one. *)
Definition reply_of (g : goroutine) : option (option string) :=
  match g with
  | GGot err => Some err
  | GReported err => Some (Some err)
  | GDone err => Some err
  | _ => None
  end.

(** *** Reporting the error of a position *)

Definition harmless : string := "invalid location:".

(** [b.Logf("%s:%d:%d: %s", path, line, character, err)] *)
Definition Logf (path : string) (line character : Z) (err : string) : string :=
  path +:+ ":" +:+ Go.Itoa line +:+ ":" +:+ Go.Itoa character +:+ ": " +:+ err.

(** What the goroutine of a position appends to the benchmark log, given
    what [doStressTestOpForPosition] returned. *)
Definition report (path : string) (line character : Z)
    (res : option string) : list string :=
  match res with
  | Some err =>
      if negb (Go.Contains err harmless)
      then [Logf path line character err]
      else []
  | None => []
  end.

(** *** One iteration of the [b.N] loop as a transition system *)

Definition positions_of (paths : list string)
    (m : gmap string (list (Z * Z))) : list (string * (Z * Z)) :=
  flat_map (fun path => map (fun p => (path, p)) (default [] (m !! path))) paths.

Record task := mkTask {
  t_path : string; t_line : Z; t_character : Z;
  t_op : opstate; t_done : bool }.

Inductive iterpc :=
| IDial (positions : list (string * (Z * Z)))
| IInitialize (positions : list (string * (Z * Z)))
| ISpawn (rest : list (string * (Z * Z)))
| IReaped
| IFatal (err : string).

Record iterstate := mkIter {
  it_pc : iterpc;
  it_tasks : list task;
  it_wg : nat;
  it_conn : list Request;
  it_log : list string }.

Inductive ievent :=
| IMain (reply : option string)
| ITask (j : nat) (ev : event)
| IReport (j : nat).

Definition initialize_request (root : URI) (mode : string) : Request :=
  mkRequest "initialize" (ClientProxyInitializeParams (URI_String root) mode).

Definition iter_init (positions : list (string * (Z * Z))) : iterstate :=
  mkIter (IDial positions) [] 0 [] [].

(** [IMain]: the benchmark goroutine dials and sends "initialize", gets
    its reply (fatal on error), spawns one goroutine per position, and
    after [wg.Wait()] shuts the idle servers down. [ITask j]: a step
    inside the call of [doStressTestOpForPosition] made by goroutine [j].
    [IReport j]: goroutine [j] handles the returned error and runs the
    deferred [wg.Done()]. *)
Definition iter_step (root : URI) (mode : string) (ev : ievent)
    (st : iterstate) : option iterstate :=
  let '(mkIter pc tasks wg conn log) := st in
  match ev with
  | IMain reply =>
      match pc with
      | IDial positions =>
          Some (mkIter (IInitialize positions) tasks wg
                  (conn ++ [initialize_request root mode]) log)
      | IInitialize positions =>
          match reply with
          | Some err => Some (mkIter (IFatal err) tasks wg conn log)
          | None => Some (mkIter (ISpawn positions) tasks wg conn log)
          end
      | ISpawn ((path, (line, character)) :: rest) =>
          Some (mkIter (ISpawn rest)
                  (tasks ++ [mkTask path line character
                               (op_init root path line character) false])
                  (S wg) conn log)
      | ISpawn [] =>
          if (wg =? 0)%nat then Some (mkIter IReaped tasks wg conn log) else None
      | IReaped => None
      | IFatal _ => None
      end
  | ITask j ev' =>
      match tasks !! j with
      | Some (mkTask path line character op false) =>
          match op_step ev' op with
          | Some (op', out) =>
              Some (mkIter pc (<[j := mkTask path line character op' false]> tasks)
                      wg (conn ++ out) log)
          | None => None
          end
      | _ => None
      end
  | IReport j =>
      match tasks !! j with
      | Some (mkTask path line character op false) =>
          match op_pc op with
          | MReturned res =>
              Some (mkIter pc (<[j := mkTask path line character op true]> tasks)
                      (pred wg) conn (log ++ report path line character res))
          | MLoop _ => None
          end
      | _ => None
      end
  end.

Fixpoint iter_run (root : URI) (mode : string) (sched : list ievent)
    (st : iterstate) : option iterstate :=
  match sched with
  | [] => Some st
  | ev :: sched' =>
      match iter_step root mode ev st with
      | Some st' => iter_run root mode sched' st'
      | None => None
      end
  end.



(** *** The globals of package [xlang] that the benchmark assigns *)

Inductive RepoVFSFactory :=
| GitserverRepoVFS
| GitHubRepoVFS
| OtherRepoVFS (tag : nat).

Record Globals := mkGlobals {
  LogTrackedErrors : bool;
  NewRemoteRepoVFS : RepoVFSFactory }.


Definition set_LogTrackedErrors (v : bool) (g : Globals) : Globals :=
  mkGlobals v (NewRemoteRepoVFS g).

Definition set_NewRemoteRepoVFS (v : RepoVFSFactory) (g : Globals) : Globals :=
  mkGlobals (LogTrackedErrors g) v.

Inductive Exit := Skipped | Fataled | Returned.

(** Deferred calls, most recent first; they run when the function
    returns and when [b.Fatal] or [b.Skip] stops its goroutine. *)
Definition run_defers (ds : list (Globals -> Globals)) (g : Globals) : Globals :=
  fold_left (fun g d => d g) ds g.

Record Test := mkTest { mode : string; fileExt : string }.

Definition tests : list (string * Test) :=
  [ ("git://github.com/gorilla/mux?0a192a193177452756c362c20087ddafcf6829c4",
     mkTest "go" ".go");
    ("git://github.com/gorilla/csrf?a8abe8abf66db8f4a9750d76ba95b4021a354757",
     mkTest "go" ".go");
    ("git://github.com/golang/go?go1.7.1", mkTest "go" ".go") ].

(** [strings.Replace(s, "/", "-", -1)] *)
Fixpoint slashes_to_dashes (s : string) : string :=
  match s with
  | EmptyString => EmptyString
  | String c s' =>
      String (if Ascii.eqb c "/" then "-"%char else c) (slashes_to_dashes s')
  end.

(** [for rootPath, test := range tests]: [uri.Parse] is the missing
    parser, taken as a parameter; [ran] collects, for each sub-benchmark
    started by [b.Run], its label and the globals it runs under. *)
Fixpoint tests_loop (parse : string -> option URI) (ts : list (string * Test))
    (g : Globals) (ran : list (string * Globals))
    : Exit * list (string * Globals) :=
  match ts with
  | [] => (Returned, ran)
  | (rootPath, _) :: rest =>
      match parse rootPath with
      | None => (Fataled, ran)
      | Some root =>
          let label := slashes_to_dashes (Host root +:+ Path root) in
          tests_loop parse rest g (ran ++ [(label, g)])
      end
  end.

Definition BenchmarkStress (short : bool) (parse : string -> option URI)
    (ts : list (string * Test)) (g0 : Globals)
    : Exit * Globals * list (string * Globals) :=
  if short then (Skipped, run_defers [] g0, [])
  else
    let orig := LogTrackedErrors g0 in
    let g1 := set_LogTrackedErrors false g0 in
    let ds1 := [set_LogTrackedErrors orig] in
    let orig' := NewRemoteRepoVFS g1 in
    let g2 := set_NewRemoteRepoVFS GitHubRepoVFS g1 in
    let ds2 := set_NewRemoteRepoVFS orig' :: ds1 in
    let '(exit, ran) := tests_loop parse ts g2 [] in
    (exit, run_defers ds2 g2, ran).

(** *** What the transition systems maintain *)

(** A goroutine holds a slot of the [Run] from [Acquire] to [Release]. *)
Definition active (g : goroutine) : bool :=
  match g with
  | GReady | GCalling | GGot _ | GReported _ => true
  | GNotStarted | GDone _ => false
  end.

(** A goroutine has sent its request. *)
Definition issued (g : goroutine) : bool :=
  match g with
  | GNotStarted | GReady => false
  | GCalling | GGot _ | GReported _ | GDone _ => true
  end.

(** The error a goroutine has handed to [par.Error]. *)
Definition recorded (g : goroutine) : option string :=
  match g with
  | GReported err => Some err
  | GDone (Some err) => Some err
  | _ => None
  end.

Fixpoint running (gs : list goroutine) : nat :=
  match gs with
  | [] => 0
  | g :: gs' => ((if active g then 1 else 0) + running gs')%nat
  end.

Fixpoint issued_requests (params : Params) (ms : list string)
    (gs : list goroutine) : list Request :=
  match ms, gs with
  | m :: ms', g :: gs' =>
      (if issued g then [mkRequest m params] else [])
        ++ issued_requests params ms' gs'
  | _, _ => []
  end.

Record op_inv (st : opstate) (sent : list Request) : Prop := mkOpInv {
  inv_length : length (op_gs st) = length methods;
  inv_maxPar : maxPar (op_par st) = length methods;
  inv_loop : forall k, op_pc st = MLoop k ->
    (k <= length methods)%nat /\
    forall j g, op_gs st !! j = Some g -> (g = GNotStarted <-> (k <= j)%nat);
  inv_returned : forall res, op_pc st = MReturned res ->
    res = runErr (op_par st) /\
    forall j g, op_gs st !! j = Some g -> exists err, g = GDone err;
  inv_inUse : inUse (op_par st) = running (op_gs st);
  inv_no_error : runErr (op_par st) = None ->
    forall j g, op_gs st !! j = Some g -> recorded g = None;
  inv_error : forall e, runErr (op_par st) = Some e ->
    exists j m g err, methods !! j = Some m /\ op_gs st !! j = Some g /\
      recorded g = Some err /\ e = tagged m err;
  inv_sent : sent ≡ₚ issued_requests (op_params st) methods (op_gs st) }.



End Stress.


(** ** The session registry and the idle reaper of the proxy *)

Module Registry.

(** Modelled from the spec: the proxy (package [xlang]) is missing. A
    workspace root is the four components scheme, host, path and revision;
    a session key is a mode and a workspace root. *)
Record WorkspaceRoot := mkRoot {
  scheme : string; host : string; path : string; revision : string }.

#[global] Instance WorkspaceRoot_eq_dec : EqDecision WorkspaceRoot.
Proof. solve_decision. Defined.

#[global] Instance WorkspaceRoot_countable : Countable WorkspaceRoot.
Proof.
  refine (inj_countable'
            (fun r => (scheme r, host r, path r, revision r))
            (fun t => let '(a, b, c, d) := t in mkRoot a b c d) _).
  intros []; reflexivity.
Defined.

Abbreviation SessionKey := (string * WorkspaceRoot)%type (only parsing).











End Registry.

(** ** Package [resolvers]: the code-host connection resolver *)

Module Resolvers.

Abbreviation error := string (only parsing).

Record CodeHost := mkCodeHost {
  ExternalServiceType : string;
  ExternalServiceID : string }.

(** [database.UserCredential]. Of its [Credential] the resolver only asks
    whether the dynamic type implements [auth.AuthenticatorWithSSH]. *)
Record UserCredential := mkUserCredential {
  cred_ID : Z;
  cred_ExternalServiceType : string;
  cred_ExternalServiceID : string;
  CredentialWithSSH : bool }.

(** [types.Repo]: [ServiceID] is [ExternalRepo.ServiceID], and [CloneURLs]
    is what the method of that name computes from the sources the repo
    points to. *)
Record Repo := mkRepo {
  repo_ID : Z;
  ServiceID : string;
  CloneURLs : list string }.

(** [idType]: (externalServiceID, externalServiceType). *)
Abbreviation idType := (string * string)%type (only parsing).

Record LimitOffset := mkLimitOffset { Limit : Z; Offset : Z }.

Definition ListCodeHostsOpts : Type := list Z.

(** The collaborators of the resolver. The three store operations are
    indexed by the number of earlier invocations, so that a second
    invocation may well answer differently. [url_Parse] gives the scheme
    of the parsed URL. *)
Record Env := mkEnv {
  ListCodeHosts : nat -> ListCodeHostsOpts -> list CodeHost * option error;
  UserCredentials_List : nat -> Z -> list UserCredential * option error;
  Repos_List : nat -> list Z -> list Repo * option error;
  url_Parse : string -> error + string;
  TypeToKind : string -> string }.

Record resolver := mkResolver {
  onlyWithoutCredential : bool;
  repos : list Z;
  userID : Z;
  opts : ListCodeHostsOpts;
  limitOffset : LimitOffset;
  once : bool;
  chs : list CodeHost;
  chsPage : list CodeHost;
  credsByIDType : gmap idType UserCredential;
  chsErr : option error }.

Definition newResolver (only : bool) (rs : list Z) (uid : Z)
    (o : ListCodeHostsOpts) (lo : LimitOffset) : resolver :=
  mkResolver only rs uid o lo false [] [] ∅ None.

Definition with_once (v : bool) (c : resolver) : resolver :=
  mkResolver (onlyWithoutCredential c) (repos c) (userID c) (opts c)
    (limitOffset c) v (chs c) (chsPage c) (credsByIDType c) (chsErr c).

Definition with_chs (v : list CodeHost) (c : resolver) : resolver :=
  mkResolver (onlyWithoutCredential c) (repos c) (userID c) (opts c)
    (limitOffset c) (once c) v (chsPage c) (credsByIDType c) (chsErr c).

Definition with_chsPage (v : list CodeHost) (c : resolver) : resolver :=
  mkResolver (onlyWithoutCredential c) (repos c) (userID c) (opts c)
    (limitOffset c) (once c) (chs c) v (credsByIDType c) (chsErr c).

Definition with_credsByIDType (v : gmap idType UserCredential) (c : resolver)
    : resolver :=
  mkResolver (onlyWithoutCredential c) (repos c) (userID c) (opts c)
    (limitOffset c) (once c) (chs c) (chsPage c) v (chsErr c).

Definition with_chsErr (v : option error) (c : resolver) : resolver :=
  mkResolver (onlyWithoutCredential c) (repos c) (userID c) (opts c)
    (limitOffset c) (once c) (chs c) (chsPage c) (credsByIDType c) v.

(** How often each store operation has been invoked. *)
Record Calls := mkCalls {
  codeHostCalls : nat;
  credentialCalls : nat;
  repoCalls : nat }.

Definition state : Type := resolver * Calls.

(** *** A state monad with [return] and panics *)

Inductive result (A : Type) :=
| Val (a : A)
| Return
| Panic (msg : string).

Arguments Val {A} a.
Arguments Return {A}.
Arguments Panic {A} msg.

Definition M (A : Type) : Type := state -> result A * state.

Definition ret {A} (a : A) : M A := fun s => (Val a, s).

Definition bind {A B} (m : M A) (k : A -> M B) : M B :=
  fun s =>
    match m s with
    | (Val a, s') => k a s'
    | (Return, s') => (Return, s')
    | (Panic msg, s') => (Panic msg, s')
    end.

Notation "'do' x <- m ; k" := (bind m (fun x => k))
  (at level 10, x name, m at level 100, k at level 200).
Notation "'do_' m ; k" := (bind m (fun _ => k))
  (at level 10, m at level 100, k at level 200).

Definition getc : M resolver := fun s => (Val (fst s), s).
Definition modify (f : resolver -> resolver) : M unit :=
  fun s => (Val tt, (f (fst s), snd s)).
Definition return_ {A} : M A := fun s => (Return, s).
Definition panic {A} (msg : string) : M A := fun s => (Panic msg, s).

Definition nil_dereference : string :=
  "runtime error: invalid memory address or nil pointer dereference".
Definition out_of_range : string :=
  "runtime error: slice bounds out of range".

Definition call_ListCodeHosts (env : Env) (o : ListCodeHostsOpts)
    : M (list CodeHost * option error) :=
  fun s =>
    let n := snd s in
    (Val (ListCodeHosts env (codeHostCalls n) o),
     (fst s, mkCalls (S (codeHostCalls n)) (credentialCalls n) (repoCalls n))).

Definition call_UserCredentials_List (env : Env) (uid : Z)
    : M (list UserCredential * option error) :=
  fun s =>
    let n := snd s in
    (Val (UserCredentials_List env (credentialCalls n) uid),
     (fst s, mkCalls (codeHostCalls n) (S (credentialCalls n)) (repoCalls n))).

Definition call_Repos_List (env : Env) (ids : list Z)
    : M (list Repo * option error) :=
  fun s =>
    let n := snd s in
    (Val (Repos_List env (repoCalls n) ids),
     (fst s, mkCalls (codeHostCalls n) (credentialCalls n) (S (repoCalls n)))).

(** [s[lo:hi]], panicking when out of range. *)
Definition slice_of {A} (l : list A) (lo hi : Z) : M (list A) :=
  match Go.slice l lo hi with
  | Some p => ret p
  | None => panic out_of_range
  end.

(** *** [compute] *)

(** [for _, cred := range creds]: index the credentials. *)
Fixpoint indexCreds (creds : list UserCredential)
    (m : gmap idType UserCredential) : gmap idType UserCredential :=
  match creds with
  | [] => m
  | cred :: rest =>
      let t := (cred_ExternalServiceID cred, cred_ExternalServiceType cred) in
      indexCreds rest (<[t := cred]> m)
  end.

(** [for _, repo := range repos]: group the repos by service ID. A slice
    of repo pointers is a list of options, [None] being the nil pointer;
    [make([]*types.Repo, 1)] is the slice holding one nil pointer. *)
Fixpoint groupRepos (rs : list Repo) (m : gmap string (list (option Repo)))
    : gmap string (list (option Repo)) :=
  match rs with
  | [] => m
  | repo :: rest =>
      let sid := ServiceID repo in
      let m1 :=
        match m !! sid with
        | Some _ => m
        | None => <[sid := replicate 1 None]> m
        end in
      groupRepos rest (<[sid := default [] (m1 !! sid) ++ [Some repo]]> m1)
  end.

Definition reposByServiceIDs (rs : list Repo) : gmap string (list (option Repo)) :=
  groupRepos rs ∅.

Inductive loopres (A : Type) :=
| LoopDone (a : A)
| LoopErr (err : error)
| LoopPanic (msg : string).

Arguments LoopDone {A} a.
Arguments LoopErr {A} err.
Arguments LoopPanic {A} msg.

(** [for _, u := range repo.CloneURLs()] *)
Fixpoint urlsLoop (env : Env) (urls : list string) (isSSH : bool) : loopres bool :=
  match urls with
  | [] => LoopDone isSSH
  | u :: rest =>
      match url_Parse env u with
      | inl err => LoopErr err
      | inr parsedScheme =>
          if String.eqb parsedScheme "ssh" then LoopDone true
          else urlsLoop env rest isSSH
      end
  end.

(** [for _, repo := range repos]; [repo.CloneURLs()] reads through the
    pointer, so a nil [repo] panics. *)
Fixpoint reposLoop (env : Env) (rs : list (option Repo)) (isSSH : bool)
    : loopres bool :=
  match rs with
  | [] => LoopDone isSSH
  | None :: _ => LoopPanic nil_dereference
  | Some repo :: rest =>
      match urlsLoop env (CloneURLs repo) isSSH with
      | LoopDone isSSH' => reposLoop env rest isSSH'
      | LoopErr err => LoopErr err
      | LoopPanic msg => LoopPanic msg
      end
  end.

(** [for _, ch := range c.chs], accumulating the local [chs]. *)
Fixpoint hostsLoop (env : Env) (creds : gmap idType UserCredential)
    (byService : gmap string (list (option Repo)))
    (hosts : list CodeHost) (acc : list CodeHost) : loopres (list CodeHost) :=
  match hosts with
  | [] => LoopDone acc
  | ch :: rest =>
      let t := (ExternalServiceID ch, ExternalServiceType ch) in
      match byService !! ExternalServiceID ch with
      | None => LoopErr "no repos found"
      | Some rs =>
          match reposLoop env rs false with
          | LoopErr err => LoopErr err
          | LoopPanic msg => LoopPanic msg
          | LoopDone isSSH =>
              let acc' :=
                match creds !! t with
                | None => acc ++ [ch]
                | Some cred =>
                    if isSSH
                    then (if CredentialWithSSH cred then acc else acc ++ [ch])
                    else acc
                end in
              hostsLoop env creds byService rest acc'
          end
      end
  end.

(** The [if c.onlyWithoutCredential] block. *)
Definition filterWithoutCredential (env : Env) : M unit :=
  do c <- getc;
  do r <- call_Repos_List env (repos c);
  match snd r with
  | Some err => do_ modify (with_chsErr (Some err)); return_
  | None =>
      let byService := reposByServiceIDs (fst r) in
      match hostsLoop env (credsByIDType c) byService (chs c) [] with
      | LoopErr err => do_ modify (with_chsErr (Some err)); return_
      | LoopPanic msg => panic msg
      | LoopDone l => modify (with_chs l)
      end
  end.

(** The pagination at the end of the closure. *)
Definition paginate : M unit :=
  do c <- getc;
  let afterIdx := Offset (limitOffset c) in
  if Go.len (chs c) <=? afterIdx then return_
  else
    let limit := Limit (limitOffset c) in
    if limit <=? 0 then
      do page <- slice_of (chs c) afterIdx (Go.len (chs c));
      do_ modify (with_chsPage page);
      return_
    else
      let limit :=
        if Go.len (chs c) <=? Go.int_add limit afterIdx
        then Go.int_sub (Go.len (chs c)) afterIdx
        else limit in
      do page <- slice_of (chs c) afterIdx (Go.int_add limit afterIdx);
      modify (with_chsPage page).

(** The function handed to [c.once.Do]. *)
Definition closure (env : Env) : M unit :=
  do c <- getc;
  do r <- call_ListCodeHosts env (opts c);
  do_ modify (fun c => with_chsErr (snd r) (with_chs (fst r) c));
  do_ (match snd r with Some _ => return_ | None => ret tt end);
  do cr <- call_UserCredentials_List env (userID c);
  do_ (match snd cr with
       | Some err => do_ modify (with_chsErr (Some err)); return_
       | None => ret tt
       end);
  do_ modify (with_credsByIDType (indexCreds (fst cr) ∅));
  do_ (if onlyWithoutCredential c then filterWithoutCredential env else ret tt);
  paginate.

(** [sync.Once.Do]: the function runs on the first call only, and the
    Once is done when the function has returned or panicked. *)
Definition once_Do (f : M unit) : M unit :=
  fun s =>
    if once (fst s) then (Val tt, s)
    else
      let '(r, s') := f s in
      let s'' := (with_once true (fst s'), snd s') in
      match r with
      | Panic msg => (Panic msg, s'')
      | _ => (Val tt, s'')
      end.

Definition results : Type :=
  list CodeHost * list CodeHost * gmap idType UserCredential * option error.

Definition cached (c : resolver) : results :=
  (chs c, chsPage c, credsByIDType c, chsErr c).

Definition compute (env : Env) : M results :=
  do_ once_Do (closure env);
  do c <- getc;
  ret (cached c).

(** *** The three methods *)

(** [graphqlutil.PageInfo]: [NextPageCursor] sets the end cursor and
    reports a next page, [HasNextPage] only sets the flag. *)
Record PageInfoT := mkPageInfo { endCursor : option string; hasNextPage : bool }.

Definition NextPageCursor (cursor : string) : PageInfoT := mkPageInfo (Some cursor) true.
Definition HasNextPage (b : bool) : PageInfoT := mkPageInfo None b.

Record campaignsCodeHostResolver := mkCodeHostResolver {
  externalServiceKind : string;
  externalServiceURL : string;
  credential : option UserCredential }.

(** [int32(n)] *)
Definition int32 (z : Z) : Z := (z + 2 ^ 31) mod 2 ^ 32 - 2 ^ 31.

Inductive response :=
| TotalCountResponse (n : Z) (err : option error)
| PageInfoResponse (p : option PageInfoT) (err : option error)
| NodesResponse (nodes : list campaignsCodeHostResolver) (err : option error).

(** What each method does with the results of [compute]. *)
Definition TotalCount_of (r : results) : response :=
  let '(chs, _, _, err) := r in
  match err with
  | Some e => TotalCountResponse 0 (Some e)
  | None => TotalCountResponse (int32 (Go.len chs)) None
  end.

Definition PageInfo_of (lo : LimitOffset) (r : results) : response :=
  let '(chs, _, _, err) := r in
  match err with
  | Some e => PageInfoResponse None (Some e)
  | None =>
      let idx := Go.int_add (Limit lo) (Offset lo) in
      if idx <? Go.len chs
      then PageInfoResponse (Some (NextPageCursor (Go.Itoa idx))) None
      else PageInfoResponse (Some (HasNextPage false)) None
  end.

Definition Nodes_of (env : Env) (r : results) : response :=
  let '(_, page, credsByIDType, err) := r in
  match err with
  | Some e => NodesResponse [] (Some e)
  | None =>
      NodesResponse
        (map (fun ch =>
                let t := (ExternalServiceID ch, ExternalServiceType ch) in
                mkCodeHostResolver (TypeToKind env (ExternalServiceType ch))
                  (ExternalServiceID ch) (credsByIDType !! t))
             page)
        None
  end.

Definition TotalCount (env : Env) : M response :=
  do r <- compute env; ret (TotalCount_of r).

Definition PageInfo (env : Env) : M response :=
  do r <- compute env; do c <- getc; ret (PageInfo_of (limitOffset c) r).

Definition Nodes (env : Env) : M response :=
  do r <- compute env; ret (Nodes_of env r).

Inductive method := CallTotalCount | CallPageInfo | CallNodes.

Definition invoke (env : Env) (m : method) : M response :=
  match m with
  | CallTotalCount => TotalCount env
  | CallPageInfo => PageInfo env
  | CallNodes => Nodes env
  end.

(** What a method answers from the results cached in the resolver. *)
Definition answer (env : Env) (m : method) (c : resolver) : response :=
  match m with
  | CallTotalCount => TotalCount_of (cached c)
  | CallPageInfo => PageInfo_of (limitOffset c) (cached c)
  | CallNodes => Nodes_of env (cached c)
  end.

(** A sequence of method calls on one resolver, with what each returned. *)
Fixpoint invoke_all (env : Env) (ms : list method) (s : state)
    : list (result response) * state :=
  match ms with
  | [] => ([], s)
  | m :: rest =>
      let '(r, s') := invoke env m s in
      let '(rs, s'') := invoke_all env rest s' in
      (r :: rs, s'')
  end.

End Resolvers.


(** ** Notions used to state further properties of the benchmark *)

Module StressFacts.

Import Stress.

(** [after_runes h line character]: the runes [h], pairs of a byte index
    and a rune as [range] yields them, split into [before], which is empty
    or ends with a line feed, and [after], which holds no line feed;
    [line] is the number of line feeds in [before] and [character] the
    number of runes in [after]. *)
Definition after_runes (h : list (Z * Z)) (line character : Z) : Prop :=
  exists before after,
    h = before ++ after
    /\ Forall (fun ir => snd ir <> 10) after
    /\ (before = [] \/ exists b i, before = b ++ [(i, 10)])
    /\ line = Z.of_nat (length (List.filter (fun ir => snd ir =? 10) before))
    /\ character = Z.of_nat (length after).

(** The parameters of the queries for a position. *)
Definition position_params (root : URI) (p : string * (Z * Z)) : Params :=
  TextDocumentPositionParams (URI_String (WithFilePath root (fst p)))
    (fst (snd p)) (snd (snd p)).

(** The three queries for a position. *)
Definition position_requests (root : URI) (p : string * (Z * Z)) : list Request :=
  map (fun m => mkRequest m (position_params root p)) methods.

Definition task_position (t : task) : string * (Z * Z) :=
  (t_path t, (t_line t, t_character t)).

(** The requests the goroutine of a position has sent so far. *)
Definition task_requests (t : task) : list Request :=
  issued_requests (op_params (t_op t)) methods (op_gs (t_op t)).

(** The positions for which no goroutine has been started yet. *)
Definition pending (pc : iterpc) : list (string * (Z * Z)) :=
  match pc with
  | IDial ps | IInitialize ps | ISpawn ps => ps
  | IReaped | IFatal _ => []
  end.

Definition task_ok (root : URI) (t : task) : Prop :=
  op_inv (t_op t) (task_requests t)
  /\ op_params (t_op t) = position_params root (task_position t)
  /\ (t_done t = true -> exists res, op_pc (t_op t) = MReturned res).

(** What an iteration maintains: the goroutines started and the positions
    still pending make up the positions of the iteration; the wait group
    counts the goroutines that are not done; the connection has carried
    "initialize" and the requests of the goroutines; and the idle servers
    are shut down only with the wait group at zero. *)
Record iter_inv (root : URI) (mode : string)
    (positions : list (string * (Z * Z))) (st : iterstate) : Prop := mkIterInv {
  ii_positions :
    match it_pc st with
    | IFatal _ => True
    | pc => map task_position (it_tasks st) ++ pending pc = positions
    end;
  ii_started :
    match it_pc st with
    | IDial _ | IInitialize _ | IFatal _ => it_tasks st = []
    | ISpawn _ => True
    | IReaped => it_wg st = 0%nat
    end;
  ii_tasks : Forall (task_ok root) (it_tasks st);
  ii_wg : it_wg st
          = length (List.filter (fun t => negb (t_done t)) (it_tasks st));
  ii_conn :
    match it_pc st with
    | IDial _ => it_conn st = []
    | _ => exists queries,
             it_conn st = initialize_request root mode :: queries
             /\ queries ≡ₚ flat_map task_requests (it_tasks st)
    end }.


(** *** The repository name handed to [vfsutil.NewGitHubRepoVFS] *)

(** [strings.HasSuffix] and [strings.TrimSuffix] *)
Definition HasSuffix (s suffix : string) : bool :=
  (String.length suffix <=? String.length s)%nat
  && String.eqb
       (String.substring (String.length s - String.length suffix)
          (String.length suffix) s)
       suffix.

Definition TrimSuffix (s suffix : string) : string :=
  if HasSuffix s suffix
  then String.substring 0 (String.length s - String.length suffix) s
  else s.

(** [fullName] in the replacement of [xlang.NewRemoteRepoVFS], from the
    host and the path of the clone URL. *)
Definition fullName (host path : string) : string :=
  host +:+ TrimSuffix path ".git".

End StressFacts.

(** ** Command [frontend]: the enterprise setup hook *)

Module Frontend.

(** [strconv.ParseBool] *)
Definition ParseBool (str : string) : option bool :=
  if bool_decide (str ∈ ["1"; "t"; "T"; "TRUE"; "true"; "True"]) then Some true
  else if bool_decide (str ∈ ["0"; "f"; "F"; "FALSE"; "false"; "False"])
       then Some false
       else None.

(** The names under which [initFunctions] registers the initialisers. *)
Definition initNames : list string :=
  [ "authz"; "licensing"; "executor"; "codeintel"; "insights"; "campaigns";
    "codemonitors" ].

Section Hook.

Context {Services : Type}.

(** An initialiser [fn(ctx, db, &enterpriseServices)]: it may change the
    services it is given and returns an error or nil. *)
Definition initFunction : Type := Services -> Services * option string.

Inductive hookOutcome :=
| HookReturned (services : Services) (logged : list string)
| HookFatal (logged : list string).

(** [for name, fn := range initFunctions], over the entries in the order
    in which the map yields them; [inl] is the message of [log.Fatal]. *)
Fixpoint initLoop (fns : list (string * initFunction)) (services : Services)
    : string + Services :=
  match fns with
  | [] => inr services
  | (name, fn) :: rest =>
      let '(services', err) := fn services in
      match err with
      | Some e => inl ("failed to initialize " +:+ name +:+ ": " +:+ e)
      | None => initLoop rest services'
      end
  end.

(** [DEBUG] is the value of the environment variable, [defaults] the
    result of [enterprise.DefaultServices()]. *)
Definition enterpriseSetupHook (DEBUG : string) (defaults : Services)
    (fns : list (string * initFunction)) : hookOutcome :=
  let debug := default false (ParseBool DEBUG) in
  let logged := if debug then ["enterprise edition"] else [] in
  match initLoop fns defaults with
  | inl msg => HookFatal (logged ++ [msg])
  | inr services => HookReturned services logged
  end.

End Hook.

End Frontend.

(** * Properties *)

Import utf8 Stress.

(** ** Decoding *)

Lemma DecodeRune_width (b : byte) (s : list byte) :
  (1 <= snd (DecodeRune (b :: s)) <= 4)%nat.
Proof.
  unfold DecodeRune.
  repeat match goal with
         | |- context [if ?c then _ else _] => destruct c
         | |- context [match ?l with [] => _ | _ :: _ => _ end] => destruct l
         end; simpl; lia.
Qed.

(** The fuel of [range_string] is enough: more fuel decodes the same. *)
Lemma range_from_fuel (f : nat) (i : Z) (s : list byte) :
  (length s <= f)%nat -> range_from f i s = range_from (length s) i s.
Proof.
  revert i s. induction f as [f IH] using lt_wf_ind. intros i s Hf.
  destruct s as [|b s]; [by destruct f|].
  destruct f as [|f]; [simpl in Hf; lia|].
  cbn [length] in Hf. cbn [range_from length].
  pose proof (DecodeRune_width b s) as Hw.
  destruct (DecodeRune (b :: s)) as [r sz]. cbn [snd] in Hw.
  f_equal.
  assert (Hd : (length (drop sz (b :: s)) <= length s)%nat).
  { rewrite length_drop. simpl. lia. }
  rewrite (IH f) by lia.
  symmetry. apply IH; [simpl; lia | exact Hd].
Qed.

(** The byte indices produced by [range] increase strictly. *)
Lemma range_from_lower (f : nat) (i : Z) (s : list byte) (k : nat) (j r : Z) :
  range_from f i s !! k = Some (j, r) -> i + Z.of_nat k <= j.
Proof.
  revert i s k. induction f as [|f IH]; intros i s k H; [done|].
  destruct s as [|b s]; [done|].
  cbn [range_from] in H.
  pose proof (DecodeRune_width b s) as Hw.
  destruct (DecodeRune (b :: s)) as [r' sz]. cbn [snd] in Hw.
  destruct k as [|k]; simpl in H.
  - inversion H; lia.
  - apply IH in H. lia.
Qed.

Lemma range_from_increasing (f : nat) (i : Z) (s : list byte)
    (k k' : nat) (j r j' r' : Z) :
  range_from f i s !! k = Some (j, r) ->
  range_from f i s !! k' = Some (j', r') ->
  (k < k')%nat -> j < j'.
Proof.
  revert i s k k'. induction f as [|f IH]; intros i s k k' H H' Hlt; [done|].
  destruct s as [|b s]; [done|].
  cbn [range_from] in H, H'.
  pose proof (DecodeRune_width b s) as Hw.
  destruct (DecodeRune (b :: s)) as [r0 sz]. cbn [snd] in Hw.
  destruct k' as [|k']; [lia|].
  destruct k as [|k]; simpl in H, H'.
  - inversion H; subst. apply range_from_lower in H'. lia.
  - eapply IH; eauto. lia.
Qed.

(** [string(r) == "\n"] holds for the line feed only. *)
Lemma byte_of_Z_to_N (z : Z) : Z.of_N (Byte.to_N (byte_of_Z z)) = z mod 256.
Proof.
  unfold byte_of_Z.
  destruct (Byte.of_N (Z.to_N (z mod 256))) as [b|] eqn:E.
  - apply Byte.to_of_N in E. rewrite E.
    apply Z2N.id. apply Z.mod_pos_bound. lia.
  - apply Byte.of_N_None_iff in E.
    pose proof (Z.mod_pos_bound z 256). lia.
Qed.

Lemma newline_rune (r : Z) :
  bytes_eqb (EncodeRune r) newline = (r =? 10).
Proof.
  unfold EncodeRune, newline, encode3.
  destruct ((0 <=? r) && (r <=? 0x7F)) eqn:E1.
  - apply andb_true_iff in E1 as [H0 H1].
    apply Z.leb_le in H0, H1.
    cbn [bytes_eqb]. rewrite andb_true_r.
    destruct (Z.eqb_spec r 10) as [->|Hne]; [reflexivity|].
    destruct (Byte.eqb (byte_of_Z r) "010") eqn:E; [|reflexivity].
    apply Byte.byte_dec_bl in E.
    pose proof (byte_of_Z_to_N r) as Hb. rewrite E in Hb.
    rewrite Z.mod_small in Hb by lia. simpl in Hb. lia.
  - assert (r <> 10) as Hne.
    { intros ->. discriminate. }
    apply Z.eqb_neq in Hne. rewrite Hne.
    repeat match goal with
           | |- context [if ?c then _ else _] => destruct c
           end; cbn [bytes_eqb]; apply andb_false_r.
Qed.

(** ** Character positions *)

Lemma charPosLoop_app (rs : list (Z * Z)) (line character : Z) (acc : list (Z * Z)) :
  charPosLoop rs line character acc = acc ++ charPosLoop rs line character [].
Proof.
  revert line character acc.
  induction rs as [|[i r] rs IH]; intros line character acc; simpl.
  - by rewrite app_nil_r.
  - destruct (maxPos <=? i); [by rewrite app_nil_r|].
    destruct (bytes_eqb (EncodeRune r) newline);
      rewrite IH, (IH _ _ [(line, character)]), app_assoc; reflexivity.
Qed.

Lemma charPosLoop_cons (i r : Z) (rs : list (Z * Z)) (line character : Z) :
  charPosLoop ((i, r) :: rs) line character [] =
  if maxPos <=? i then []
  else (line, character)
         :: charPosLoop rs (if r =? 10 then line + 1 else line)
              (if r =? 10 then 0 else character + 1) [].
Proof.
  cbn [charPosLoop]. destruct (maxPos <=? i); [reflexivity|].
  rewrite newline_rune. cbn [app].
  destruct (r =? 10); rewrite charPosLoop_app; reflexivity.
Qed.

Lemma charPosLoop_first (rs : list (Z * Z)) (line character : Z) (p : Z * Z) :
  charPosLoop rs line character [] !! 0%nat = Some p -> p = (line, character).
Proof.
  destruct rs as [|[i r] rs]; [done|].
  rewrite charPosLoop_cons. destruct (maxPos <=? i); [done|].
  simpl. congruence.
Qed.

Lemma charPosLoop_next (rs : list (Z * Z)) (line character : Z)
    (k : nat) (i r l c : Z) (p' : Z * Z) :
  rs !! k = Some (i, r) ->
  charPosLoop rs line character [] !! k = Some (l, c) ->
  charPosLoop rs line character [] !! S k = Some p' ->
  p' = if r =? 10 then (l + 1, 0) else (l, c + 1).
Proof.
  revert line character k.
  induction rs as [|[i0 r0] rs IH]; intros line character k Hr Hk HS; [done|].
  rewrite charPosLoop_cons in Hk, HS.
  destruct (maxPos <=? i0); [done|].
  destruct k as [|k]; simpl in Hr, Hk, HS.
  - inversion Hr; inversion Hk; subst.
    apply charPosLoop_first in HS. by destruct (r =? 10).
  - eapply IH; eauto.
Qed.

Lemma charPosLoop_defined (rs : list (Z * Z)) (line character : Z) (k : nat) :
  is_Some (charPosLoop rs line character [] !! k) <->
  exists i r, rs !! k = Some (i, r) /\
    forall j i' r', (j <= k)%nat -> rs !! j = Some (i', r') -> i' < maxPos.
Proof.
  revert line character k.
  induction rs as [|[i0 r0] rs IH]; intros line character k.
  - simpl. split; [by intros [? ?]|]. by intros (? & ? & ? & _).
  - rewrite charPosLoop_cons.
    destruct (Z.leb_spec maxPos i0) as [Hge|Hlt].
    + split; [by intros [? ?]|].
      intros (i & r & _ & Hall).
      specialize (Hall 0%nat i0 r0 ltac:(lia) eq_refl). lia.
    + destruct k as [|k]; simpl.
      * split; [|by eauto].
        intros _. exists i0, r0. split; [done|].
        intros j i' r' Hj. assert (j = 0%nat) as -> by lia.
        simpl. by intros [= -> ->].
      * rewrite IH. split.
        -- intros (i & r & Hk & Hall). exists i, r. split; [done|].
           intros [|j] i' r' Hj; simpl; [by intros [= -> ->]|].
           apply Hall. lia.
        -- intros (i & r & Hk & Hall). exists i, r. split; [done|].
           intros j i' r' Hj Hl. apply (Hall (S j) i' r'); [lia|done].
Qed.

(** C1: positions are counted over the decoded runes of the file. The
    k-th position recorded belongs to the k-th rune that [range] decodes
    (one is recorded for every rune that starts before byte [maxPos]); the
    first one is line 0, character 0; after a rune other than the line feed
    the character grows by exactly one, whatever the width of the rune in
    bytes; after a line feed the line grows by one and the character is 0. *)
Theorem fileCharPos_counts_runes (contentsBytes : list byte) :
  let rs := range_string contentsBytes in
  let ps := fileCharPos contentsBytes in
  (forall k : nat,
      is_Some (ps !! k) <-> exists i r, rs !! k = Some (i, r) /\ i < maxPos)
  /\ (forall p, ps !! 0%nat = Some p -> p = (0, 0))
  /\ (forall (k : nat) (i r line character : Z) (p' : Z * Z),
         rs !! k = Some (i, r) ->
         ps !! k = Some (line, character) ->
         ps !! S k = Some p' ->
         p' = if r =? 10 then (line + 1, 0) else (line, character + 1)).
Proof.
  intros rs ps. unfold ps, fileCharPos. fold rs. split; [|split].
  - intros k. rewrite charPosLoop_defined. split.
    + intros (i & r & Hk & Hall). exists i, r. split; [done|].
      by apply (Hall k i r).
    + intros (i & r & Hk & Hlt). exists i, r. split; [done|].
      intros j i' r' Hj Hl.
      destruct (decide (j = k)) as [->|Hne]; [congruence|].
      assert (i' < i); [|lia].
      unfold rs, range_string in *.
      eapply range_from_increasing; eauto. lia.
  - apply charPosLoop_first.
  - intros k i r line character p'. apply charPosLoop_next.
Qed.

(** A file holding a two-byte, a three-byte and a four-byte rune and a
    stray byte: each of them advances the character by one. *)
Example fileCharPos_multibyte :
  fileCharPos [x61; xc3; xa9; x0a; xe2; x82; xac; xff; xf0; x9f; x98; x80; x41]
  = [(0, 0); (0, 1); (0, 2); (1, 0); (1, 1); (1, 2)].
Proof. reflexivity. Qed.

(** ** Error reporting *)

Lemma append_String (a : ascii) (p q : string) :
  String a p +:+ q = String a (p +:+ q).
Proof. reflexivity. Qed.

Lemma HasPrefix_spec (s p : string) :
  Go.HasPrefix s p = true <-> exists post, s = p +:+ post.
Proof.
  revert s. induction p as [|a p IH]; intros s.
  - split; [|by destruct s]. intros _. by exists s.
  - destruct s as [|b s]; simpl.
    + split; [done|]. by intros [post H].
    + destruct (Ascii.eqb_spec a b) as [->|Hne].
      * rewrite IH.
        split; intros [post H]; exists post; rewrite append_String in *;
          congruence.
      * split; [done|]. intros [post H]. rewrite append_String in H. congruence.
Qed.

Lemma Contains_spec (s substr : string) :
  Go.Contains s substr = true <-> exists pre post, s = pre +:+ substr +:+ post.
Proof.
  induction s as [|b s IH]; cbn [Go.Contains].
  - rewrite orb_false_r, HasPrefix_spec. split.
    + intros [post H]. by exists "", post.
    + intros (pre & post & H). exists post.
      destruct pre; [exact H|discriminate].
  - rewrite orb_true_iff, HasPrefix_spec, IH. split.
    + intros [[post H]|(pre & post & H)].
      * by exists "", post.
      * exists (String b pre), post. rewrite append_String. by rewrite H.
    + intros (pre & post & H). destruct pre as [|a pre].
      * left. by exists post.
      * right. exists pre, post. rewrite append_String in H. congruence.
Qed.

(** C2: an error returned for a position is written to the benchmark log
    exactly when its message does not contain "invalid location:"; an
    error whose message contains it leaves the log untouched. *)
Theorem report_logs_unless_invalid_location
    (path : string) (line character : Z) (err : string) :
  (report path line character (Some err) = [Logf path line character err]
     <-> ~ exists pre post, err = pre +:+ "invalid location:" +:+ post)
  /\ (report path line character (Some err) = []
     <-> exists pre post, err = pre +:+ "invalid location:" +:+ post).
Proof.
  unfold report.
  pose proof (Contains_spec err harmless) as Hc. unfold harmless in *.
  destruct (Go.Contains err "invalid location:"); cbn [negb].
  - assert (exists pre post, err = pre +:+ "invalid location:" +:+ post) as Hs
      by by apply Hc.
    split; split.
    + discriminate.
    + intros Hn. by destruct Hn.
    + done.
    + done.
  - assert (~ exists pre post, err = pre +:+ "invalid location:" +:+ post) as Hn.
    { intros Hs. apply Hc in Hs. discriminate. }
    split; split.
    + done.
    + done.
    + discriminate.
    + intros Hs. by destruct Hn.
Qed.

Example report_other_error :
  report "mux.go" 3 7 (Some "textDocument/hover: connection is shut down")
  = ["mux.go:3:7: textDocument/hover: connection is shut down"].
Proof. reflexivity. Qed.

Example report_invalid_location :
  report "mux.go" 3 7 (Some "textDocument/hover: invalid location: mux.go:4:8")
  = [].
Proof. reflexivity. Qed.

(** ** The three calls of [doStressTestOpForPosition] *)

Lemma running_insert (gs : list goroutine) (k : nat) (g g' : goroutine) :
  gs !! k = Some g ->
  (running (<[k := g']> gs) + (if active g then 1 else 0)
   = running gs + (if active g' then 1 else 0))%nat.
Proof.
  revert k. induction gs as [|g0 gs IH]; intros k H; [done|].
  destruct k as [|k]; simpl in *.
  - injection H as ->. lia.
  - specialize (IH k H). lia.
Qed.

Lemma running_positive (gs : list goroutine) :
  (0 < running gs)%nat -> exists j g, gs !! j = Some g /\ active g = true.
Proof.
  induction gs as [|g0 gs IH]; simpl; [lia|].
  destruct (active g0) eqn:E.
  - intros _. by exists 0%nat, g0.
  - intros H. destruct IH as (j & g & Hj & Hg); [lia|].
    by exists (S j), g.
Qed.

Lemma running_bound (gs : list goroutine) (k : nat) :
  (forall j g, gs !! j = Some g -> (k <= j)%nat -> active g = false) ->
  (running gs <= k)%nat.
Proof.
  revert k. induction gs as [|g0 gs IH]; intros k H; simpl; [lia|].
  destruct k as [|k].
  - rewrite (H 0%nat g0 eq_refl) by lia.
    specialize (IH 0%nat). simpl.
    apply IH. intros j g Hj _. apply (H (S j) g Hj). lia.
  - specialize (IH k).
    assert (running gs <= k)%nat.
    { apply IH. intros j g Hj Hle. apply (H (S j) g Hj). lia. }
    destruct (active g0); lia.
Qed.

Lemma issued_requests_same (params : Params) (ms : list string)
    (gs : list goroutine) (k : nat) (g g' : goroutine) :
  gs !! k = Some g -> issued g' = issued g ->
  issued_requests params ms (<[k := g']> gs) = issued_requests params ms gs.
Proof.
  revert ms k. induction gs as [|g0 gs IH]; intros ms k H Hi; [done|].
  destruct ms as [|m ms]; [by destruct k|].
  destruct k as [|k]; simpl in *.
  - injection H as ->. by rewrite Hi.
  - by rewrite (IH ms k H Hi).
Qed.

Lemma issued_requests_new (params : Params) (ms : list string)
    (gs : list goroutine) (k : nat) (g g' : goroutine) (m : string) :
  gs !! k = Some g -> ms !! k = Some m ->
  issued g = false -> issued g' = true ->
  issued_requests params ms (<[k := g']> gs)
  ≡ₚ issued_requests params ms gs ++ [mkRequest m params].
Proof.
  revert ms k. induction gs as [|g0 gs IH]; intros ms k H Hm Hf Ht; [done|].
  destruct ms as [|m0 ms]; [done|].
  destruct k as [|k]; simpl in *.
  - injection H as ->. injection Hm as ->. rewrite Hf, Ht. simpl.
    by rewrite Permutation_cons_append.
  - rewrite (IH ms k H Hm Hf Ht). by rewrite app_assoc.
Qed.

Lemma issued_requests_done (params : Params) (ms : list string)
    (gs : list goroutine) :
  length gs = length ms ->
  (forall j g, gs !! j = Some g -> exists err, g = GDone err) ->
  issued_requests params ms gs = map (fun m => mkRequest m params) ms.
Proof.
  revert ms. induction gs as [|g0 gs IH]; intros [|m ms] Hl H; try done.
  simpl. destruct (H 0%nat g0 eq_refl) as [err ->]. simpl. f_equal.
  apply IH; [simpl in Hl; lia|].
  intros j g Hj. apply (H (S j) g Hj).
Qed.

Lemma issued_requests_none (params : Params) (ms : list string) (n : nat) :
  issued_requests params ms (replicate n GNotStarted) = [].
Proof.
  revert ms. induction n as [|n IH]; intros [|m ms]; simpl; auto.
Qed.

Lemma running_none (n : nat) : running (replicate n GNotStarted) = 0%nat.
Proof. induction n; simpl; auto. Qed.

Lemma running_active (gs : list goroutine) (j : nat) (g : goroutine) :
  gs !! j = Some g -> active g = true -> (0 < running gs)%nat.
Proof.
  revert j. induction gs as [|g0 gs IH]; intros j H Ha; [done|].
  destruct j as [|j]; simpl in *.
  - injection H as ->. rewrite Ha. lia.
  - specialize (IH j H Ha). lia.
Qed.

Lemma goroutine_insert_cases (gs : list goroutine) (k j : nat) (g' g : goroutine) :
  <[k := g']> gs !! j = Some g ->
  (j = k /\ g = g') \/ (j <> k /\ gs !! j = Some g).
Proof.
  intros H. destruct (decide (j = k)) as [->|Hne].
  - left. split; [done|].
    pose proof (lookup_lt_Some _ _ _ H) as Hlt. rewrite length_insert in Hlt.
    rewrite list_lookup_insert_eq in H by done. congruence.
  - right. split; [done|]. by rewrite list_lookup_insert_ne in H.
Qed.

Lemma goroutine_insert_other (gs : list goroutine) (k j : nat) (g' g gk : goroutine) :
  gs !! k = Some gk -> gs !! j = Some g -> recorded gk = None ->
  recorded g <> None -> <[k := g']> gs !! j = Some g.
Proof.
  intros Hk Hj Hn Hs. rewrite list_lookup_insert_ne; [done|].
  intros ->. congruence.
Qed.

Lemma op_inv_init (root : URI) (path : string) (line character : Z) :
  op_inv (op_init root path line character) [].
Proof.
  unfold op_init. constructor; cbn [op_gs op_par op_pc op_params NewRun maxPar inUse runErr].
  - by rewrite length_replicate.
  - done.
  - intros k [= <-]. split; [lia|].
    intros j g Hj. apply lookup_replicate in Hj as [-> _]. split; [lia|done].
  - done.
  - by rewrite running_none.
  - intros _ j g Hj. by apply lookup_replicate in Hj as [-> _].
  - done.
  - by rewrite issued_requests_none.
Qed.

(** A step of goroutine [k], from [g] to [g'], keeps the invariant. *)
Lemma op_inv_goroutine (params : Params) (pc : mainpc) (gs : list goroutine)
    (par par' : Run) (sent out : list Request) (k : nat) (g g' : goroutine) :
  op_inv (mkOp params pc gs par) sent ->
  gs !! k = Some g ->
  active g = true -> g' <> GNotStarted ->
  maxPar par' = maxPar par ->
  (inUse par' + 1 = inUse par + (if active g' then 1 else 0))%nat ->
  (runErr par' = None -> runErr par = None /\ recorded g' = None) ->
  (forall e, runErr par' = Some e ->
     (runErr par = Some e /\ (recorded g = None \/ recorded g' = recorded g))
     \/ (exists m err, methods !! k = Some m /\ recorded g' = Some err
                       /\ e = tagged m err)) ->
  sent ++ out ≡ₚ issued_requests params methods (<[k := g']> gs) ->
  op_inv (mkOp params pc (<[k := g']> gs) par') (sent ++ out).
Proof.
  intros [Hlen Hmax Hloop Hret Huse Hnone Herr Hsent] Hk Hact Hns Hmax' Huse'
    Hnone' Herr' Hsent'.
  cbn [op_gs op_par op_pc op_params] in *.
  assert (Hlt : (k < length gs)%nat) by by eapply lookup_lt_Some.
  constructor; cbn [op_gs op_par op_pc op_params].
  - by rewrite length_insert.
  - congruence.
  - intros kpc Hpc. destruct (Hloop kpc Hpc) as [Hle Hall]. split; [done|].
    intros j g0 Hj. apply goroutine_insert_cases in Hj as [[-> ->]|[Hne Hj]].
    + specialize (Hall k g Hk). split; [done|].
      intros Hkj. apply Hall in Hkj. subst g. discriminate.
    + by apply Hall.
  - intros res Hpc. destruct (Hret res Hpc) as [_ Hall].
    destruct (Hall k g Hk) as [err ->]. discriminate.
  - pose proof (running_insert gs k g g' Hk) as Hr. rewrite Hact in Hr. lia.
  - intros Hn j g0 Hj. destruct (Hnone' Hn) as [Hn0 Hrec].
    apply goroutine_insert_cases in Hj as [[-> ->]|[Hne Hj]]; [done|].
    by eapply Hnone.
  - intros e He. destruct (Herr' e He) as [[He0 Hrec]|(m & err & Hm & Hrec & ->)].
    + destruct (Herr e He0) as (j & m & g0 & err & Hm & Hj & Hr & ->).
      exists j, m. destruct (decide (j = k)) as [->|Hne].
      * exists g', err. split; [done|]. split.
        { by rewrite list_lookup_insert_eq. }
        split; [|done]. assert (g0 = g) as -> by congruence.
        destruct Hrec as [Hrec|Hrec]; congruence.
      * exists g0, err. split; [done|]. split; [|done].
        by rewrite list_lookup_insert_ne.
    + exists k, m, g', err. split; [done|]. split; [|done].
      by rewrite list_lookup_insert_eq.
  - done.
Qed.

Lemma op_inv_step (ev : event) (st st' : opstate) (sent out : list Request) :
  op_inv st sent -> op_step ev st = Some (st', out) -> op_inv st' (sent ++ out).
Proof.
  intros Hinv Hstep. destruct st as [params pc gs par].
  pose proof Hinv as [Hlen Hmax Hloop Hret Huse Hnone Herr Hsent].
  cbn [op_gs op_par op_pc op_params] in *.
  destruct ev as [|k|k reply|k|k]; cbn [op_step] in Hstep.
  - (* the main goroutine *)
    destruct pc as [kpc|res]; [|done].
    destruct (Hloop kpc eq_refl) as [Hle Hall].
    destruct (methods !! kpc) as [m|] eqn:Hm.
    + destruct (inUse par <? maxPar par)%nat; [|done].
      injection Hstep as <- <-. rewrite app_nil_r.
      apply lookup_lt_Some in Hm as Hlt.
      destruct (lookup_lt_is_Some_2 gs kpc) as [g Hg]; [lia|].
      assert (g = GNotStarted) as -> by (apply (Hall kpc g Hg); lia).
      constructor; cbn [op_gs op_par op_pc op_params maxPar inUse runErr].
      * by rewrite length_insert.
      * done.
      * intros k' [= <-]. split; [lia|].
        intros j g0 Hj. apply goroutine_insert_cases in Hj as [[-> ->]|[Hne Hj]].
        -- split; [done|lia].
        -- rewrite (Hall j g0 Hj). lia.
      * done.
      * pose proof (running_insert gs kpc GNotStarted GReady Hg) as Hr.
        simpl in Hr. lia.
      * intros Hn j g0 Hj.
        apply goroutine_insert_cases in Hj as [[-> ->]|[Hne Hj]]; [done|].
        by eapply Hnone.
      * intros e He. destruct (Herr e He) as (j & m0 & g0 & err & Hm0 & Hj & Hr & ->).
        exists j, m0, g0, err. split; [done|]. split; [|done].
        eapply goroutine_insert_other; eauto. congruence.
      * by rewrite (issued_requests_same params methods gs kpc GNotStarted GReady).
    + destruct (Nat.eqb_spec (inUse par) 0) as [H0|]; [|done].
      injection Hstep as <- <-. rewrite app_nil_r.
      apply lookup_ge_None in Hm.
      constructor; cbn [op_gs op_par op_pc op_params]; try done.
      intros res [= <-]. split; [done|].
      intros j g Hj.
      destruct (active g) eqn:Ha.
      { pose proof (running_active gs j g Hj Ha). lia. }
      destruct g; try discriminate; [|by eauto].
      apply lookup_lt_Some in Hj as Hlt.
      pose proof (proj1 (Hall j GNotStarted Hj) eq_refl). lia.
  - (* a goroutine sends its request *)
    destruct (gs !! k) as [[| | | | |]|] eqn:Hk; try done.
    destruct (methods !! k) as [m|] eqn:Hm; [|done].
    injection Hstep as <- <-.
    eapply op_inv_goroutine;
      [exact Hinv | exact Hk | done | done | done | cbn [active]; lia | done | | ].
    + intros e He. left. split; [done|by left].
    + by rewrite (issued_requests_new params methods gs k GReady GCalling m), Hsent.
  - (* a goroutine gets its reply *)
    destruct (gs !! k) as [[| | | | |]|] eqn:Hk; try done.
    injection Hstep as <- <-.
    eapply op_inv_goroutine;
      [exact Hinv | exact Hk | done | done | done | cbn [active]; lia | done | | ].
    + intros e He. left. split; [done|by left].
    + by rewrite app_nil_r, (issued_requests_same params methods gs k GCalling).
  - (* a goroutine records its error *)
    destruct (gs !! k) as [[| | |[err|]| |]|] eqn:Hk; try done.
    destruct (methods !! k) as [m|] eqn:Hm; [|done].
    injection Hstep as <- <-.
    eapply op_inv_goroutine; [exact Hinv | exact Hk | done | done | | | | | ].
    + unfold Run_Error. by destruct (runErr par).
    + unfold Run_Error. destruct (runErr par); cbn [inUse active]; lia.
    + unfold Run_Error. destruct (runErr par) eqn:E; cbn [runErr]; [|done].
      rewrite E. done.
    + intros e He. unfold Run_Error in He.
      destruct (runErr par) as [e0|] eqn:He0; cbn [runErr] in He.
      * left. split; [congruence|by left].
      * right. exists m, err. injection He as <-. done.
    + by rewrite app_nil_r, (issued_requests_same params methods gs k (GGot (Some err))).
  - (* a goroutine releases its slot *)
    assert (Hpos : forall g, gs !! k = Some g -> active g = true ->
                     (0 < inUse par)%nat).
    { intros g Hg Ha. rewrite Huse. by eapply running_active. }
    destruct (gs !! k) as [[| | |[err|]|err|]|] eqn:Hk; try done;
      injection Hstep as <- <-.
    + specialize (Hpos _ eq_refl eq_refl).
      eapply op_inv_goroutine; [exact Hinv | exact Hk | done | done | done | | | | ].
      * cbn [inUse active]. lia.
      * cbn [runErr]. intros Hn. split; [done|].
        apply (Hnone Hn k _ Hk).
      * intros e He. left. split; [done|by left].
      * by rewrite app_nil_r, (issued_requests_same params methods gs k (GGot None)).
    + specialize (Hpos _ eq_refl eq_refl).
      eapply op_inv_goroutine; [exact Hinv | exact Hk | done | done | done | | | | ].
      * cbn [inUse active]. lia.
      * cbn [runErr]. intros Hn. split; [done|].
        pose proof (Hnone Hn k _ Hk). done.
      * intros e He. left. split; [done|by right].
      * by rewrite app_nil_r, (issued_requests_same params methods gs k (GReported err)).
Qed.

Lemma op_step_params (ev : event) (st st' : opstate) (out : list Request) :
  op_step ev st = Some (st', out) ->
  op_params st' = op_params st
  /\ Forall (fun q => req_params q = op_params st) out.
Proof.
  intros Hs. destruct st as [p0 pc0 gs0 par0], ev; cbn [op_step] in Hs;
    repeat match type of Hs with
           | context [match ?x with _ => _ end] => destruct x; try done
           end; injection Hs as <- <-; split; try done; by repeat constructor.
Qed.



(** Until the function has returned, some goroutine can move. *)
Lemma op_progress (st : opstate) (sent : list Request) :
  op_inv st sent -> (forall res, op_pc st <> MReturned res) ->
  exists ev, is_Some (op_step ev st).
Proof.
  intros [Hlen Hmax Hloop Hret Huse Hnone Herr Hsent] Hpc.
  destruct st as [params pc gs par].
  cbn [op_gs op_par op_pc op_params] in *.
  destruct pc as [k|res]; [|by destruct (Hpc res)].
  destruct (Hloop k eq_refl) as [Hle Hall].
  destruct (methods !! k) as [m|] eqn:Hm.
  - exists EvMain. cbn [op_step]. rewrite Hm.
    apply lookup_lt_Some in Hm.
    assert (running gs <= k)%nat.
    { apply running_bound. intros j g Hj Hkj.
      apply (Hall j g Hj) in Hkj. by subst g. }
    destruct (Nat.ltb_spec (inUse par) (maxPar par)); [by eauto|lia].
  - destruct (Nat.eqb_spec (inUse par) 0) as [H0|Hn0].
    + exists EvMain. cbn [op_step]. rewrite Hm.
      apply Nat.eqb_eq in H0. rewrite H0. by eauto.
    + destruct (running_positive gs) as (j & g & Hj & Ha); [lia|].
      apply lookup_lt_Some in Hj as Hlt.
      destruct (lookup_lt_is_Some_2 methods j) as [mj Hmj]; [lia|].
      destruct g as [| | |[err|]|err|]; try discriminate.
      * exists (EvCall j). cbn [op_step]. rewrite Hj, Hmj. by eauto.
      * exists (EvReply j None). cbn [op_step]. rewrite Hj. by eauto.
      * exists (EvError j). cbn [op_step]. rewrite Hj, Hmj. by eauto.
      * exists (EvRelease j). cbn [op_step]. rewrite Hj. by eauto.
      * exists (EvRelease j). cbn [op_step]. rewrite Hj. by eauto.
Qed.


(** ** The handshake comes first *)





(** ** The globals of package [xlang] *)



Example BenchmarkStress_runs_all :
  BenchmarkStress false (fun _ => Some (mkURI "git" "github.com" "/gorilla/mux" "" ""))
    tests (mkGlobals true (OtherRepoVFS 7))
  = (Returned, mkGlobals true (OtherRepoVFS 7),
     [("github.com-gorilla-mux", mkGlobals false GitHubRepoVFS);
      ("github.com-gorilla-mux", mkGlobals false GitHubRepoVFS);
      ("github.com-gorilla-mux", mkGlobals false GitHubRepoVFS)]).
Proof. reflexivity. Qed.

(** ** The idle reaper *)

Import Registry.














(** ** The code-host connection resolver *)

Import Resolvers.

Lemma once_Do_done (f : M unit) (s : state) :
  once (fst s) = true -> once_Do f s = (Val tt, s).
Proof. intros H. unfold once_Do. by rewrite H. Qed.



(** Once the [Once] is done, [compute] hands out the cached results and
    touches nothing. *)
Lemma compute_settled (env : Env) (s : state) :
  once (fst s) = true -> compute env s = (Val (cached (fst s)), s).
Proof.
  intros H. unfold compute, bind. by rewrite once_Do_done.
Qed.

Lemma invoke_settled (env : Env) (m : method) (s : state) :
  once (fst s) = true -> invoke env m s = (Val (answer env m (fst s)), s).
Proof.
  intros H. destruct m; cbn [invoke answer];
    unfold TotalCount, PageInfo, Nodes, bind; by rewrite compute_settled.
Qed.







(** C9: the code at [Limit = 0], [Offset = 0] with one code host in the
    store. [Nodes] returns that code host, so the page leaves out nothing
    of the full list ([TotalCount] is 1), and yet [PageInfo] reports a next
    page, with end cursor "0". *)
Theorem PageInfo_next_page_without_limit :
  let github := mkCodeHost "github" "https://github.com/" in
  let env :=
    mkEnv (fun _ _ => ([github], None)) (fun _ _ => ([], None))
      (fun _ _ => ([], None)) (fun _ => inr "https") (fun t => t) in
  let c := newResolver false [] 1 [] (mkLimitOffset 0 0) in
  fst (invoke_all env [CallNodes; CallPageInfo; CallTotalCount] (c, mkCalls 0 0 0))
  = [ Val (NodesResponse
             [mkCodeHostResolver "github" "https://github.com/" None] None);
      Val (PageInfoResponse (Some (mkPageInfo (Some "0") true)) None);
      Val (TotalCountResponse 1 None) ].
Proof. vm_compute. reflexivity. Qed.

(** Every slice that [compute] stores in [reposByServiceIDs] begins with
    the nil pointer that [make([]*types.Repo, 1)] puts there. *)
Lemma groupRepos_head_nil (rs : list Repo) (m : gmap string (list (option Repo))) :
  (forall sid l, m !! sid = Some l -> l !! 0%nat = Some None) ->
  forall sid l, groupRepos rs m !! sid = Some l -> l !! 0%nat = Some None.
Proof.
  revert m. induction rs as [|repo rs IH]; intros m Hm sid l; [by apply Hm|].
  cbn [groupRepos]. apply IH. clear sid l. intros sid l.
  destruct (m !! ServiceID repo) as [l0|] eqn:E.
  - rewrite E. cbn [default].
    destruct (decide (sid = ServiceID repo)) as [->|Hne].
    + rewrite lookup_insert_eq. intros [= <-].
      rewrite lookup_app_l; [by eapply Hm|].
      apply Hm in E. by apply lookup_lt_Some in E.
    + rewrite lookup_insert_ne by done. apply Hm.
  - rewrite lookup_insert_eq. cbn [default replicate app].
    destruct (decide (sid = ServiceID repo)) as [->|Hne].
    + rewrite lookup_insert_eq. by intros [= <-].
    + rewrite !lookup_insert_ne by done. apply Hm.
Qed.

Lemma reposByServiceIDs_head_nil (rs : list Repo) (sid : string)
    (l : list (option Repo)) :
  reposByServiceIDs rs !! sid = Some l -> l !! 0%nat = Some None.
Proof.
  apply groupRepos_head_nil. intros sid' l'. by rewrite lookup_empty.
Qed.

(** C10: the code with [onlyWithoutCredential] set, one repo of the
    service "https://github.com/" and the code host of that service. The
    slice stored for the service is the nil pointer followed by the repo,
    and [compute] panics on the nil pointer when it reaches the loop over
    that slice. *)
Theorem compute_dereferences_nil_repo :
  let repo := mkRepo 1 "https://github.com/" ["https://github.com/gorilla/mux"] in
  let github := mkCodeHost "github" "https://github.com/" in
  let env :=
    mkEnv (fun _ _ => ([github], None)) (fun _ _ => ([], None))
      (fun _ _ => ([repo], None)) (fun _ => inr "https") (fun t => t) in
  let c := newResolver true [1] 1 [] (mkLimitOffset 50 0) in
  reposByServiceIDs [repo] !! "https://github.com/" = Some [None; Some repo]
  /\ fst (compute env (c, mkCalls 0 0 0)) = Panic nil_dereference.
Proof. split; vm_compute; reflexivity. Qed.

(** *** Pagination with a positive limit *)

Lemma wrap64_small (z : Z) : Go.is_int z -> Go.wrap64 z = z.
Proof.
  unfold Go.is_int, Go.wrap64. intros H.
  rewrite Z.mod_small; lia.
Qed.

Lemma with_chsPage_same (c : resolver) : with_chsPage (chsPage c) c = c.
Proof. by destruct c. Qed.

(** With a positive limit and an offset that is not negative, the closure
    ends with the page [chs[offset : min(offset+limit, len)]]. *)
Lemma paginate_with_limit (c : resolver) (n : Calls) :
  let limit := Limit (limitOffset c) in
  let offset := Offset (limitOffset c) in
  0 < limit -> 0 <= offset -> limit + offset < 2 ^ 63 ->
  Go.len (chs c) < 2 ^ 63 -> chsPage c = [] ->
  snd (paginate (c, n))
  = (with_chsPage (take (Z.to_nat limit) (drop (Z.to_nat offset) (chs c))) c, n)
  /\ forall msg, fst (paginate (c, n)) <> Panic msg.
Proof.
  intros limit offset Hl Ho Hsum Hlen Hpage.
  unfold paginate, bind, getc, modify, return_, slice_of, ret, panic.
  cbn [fst snd]. fold limit offset.
  assert (Hlen0 : 0 <= Go.len (chs c)) by (unfold Go.len; lia).
  destruct (Z.leb_spec (Go.len (chs c)) offset) as [Hge|Hlt].
  { split; [|done]. cbn [snd].
    rewrite drop_ge by (unfold Go.len in Hge; lia).
    rewrite take_nil, <- Hpage. by rewrite with_chsPage_same. }
  destruct (Z.leb_spec limit 0) as [?|_]; [lia|].
  assert (Hadd : Go.int_add limit offset = limit + offset).
  { unfold Go.int_add. apply wrap64_small. unfold Go.is_int. lia. }
  rewrite Hadd.
  destruct (Z.leb_spec (Go.len (chs c)) (limit + offset)) as [Hcap|Hin].
  - assert (Hsub : Go.int_sub (Go.len (chs c)) offset = Go.len (chs c) - offset).
    { unfold Go.int_sub. apply wrap64_small. unfold Go.is_int. lia. }
    rewrite Hsub.
    assert (Hadd' : Go.int_add (Go.len (chs c) - offset) offset = Go.len (chs c)).
    { unfold Go.int_add. rewrite wrap64_small; [lia|]. unfold Go.is_int. lia. }
    rewrite Hadd'. unfold Go.slice.
    destruct (Z.leb_spec 0 offset); [|lia].
    destruct (Z.leb_spec offset (Go.len (chs c))); [|lia].
    rewrite Z.leb_refl. cbn [andb fst snd]. split; [|done].
    do 2 f_equal.
    rewrite !take_ge; [done| |];
      rewrite length_drop; unfold Go.len in *; lia.
  - rewrite Hadd. unfold Go.slice.
    destruct (Z.leb_spec 0 offset); [|lia].
    destruct (Z.leb_spec offset (limit + offset)); [|lia].
    destruct (Z.leb_spec (limit + offset) (Go.len (chs c))); [|lia].
    cbn [andb fst snd]. split; [|done].
    do 3 f_equal. lia.
Qed.

(** With such a limit and offset, [PageInfo] reports a next page, with
    cursor [limit+offset], exactly when code hosts remain after the page
    that [compute] has prepared for [Nodes]. *)
Lemma PageInfo_with_limit (c : resolver) (n : Calls) :
  let limit := Limit (limitOffset c) in
  let offset := Offset (limitOffset c) in
  let c' := fst (snd (paginate (c, n))) in
  0 < limit -> 0 <= offset -> limit + offset < 2 ^ 63 ->
  Go.len (chs c) < 2 ^ 63 -> chsPage c = [] -> chsErr c = None ->
  (drop (Z.to_nat offset + length (chsPage c')) (chs c') <> [] ->
     PageInfo_of (limitOffset c') (cached c')
     = PageInfoResponse (Some (NextPageCursor (Go.Itoa (limit + offset)))) None)
  /\ (drop (Z.to_nat offset + length (chsPage c')) (chs c') = [] ->
     PageInfo_of (limitOffset c') (cached c')
     = PageInfoResponse (Some (HasNextPage false)) None).
Proof.
  intros limit offset c' Hl Ho Hsum Hlen Hpage Herr.
  destruct (paginate_with_limit c n Hl Ho Hsum Hlen Hpage) as [Hs _].
  unfold c'. rewrite Hs. cbn [fst].
  unfold PageInfo_of, cached.
  cbn [chs chsPage chsErr limitOffset with_chsPage credsByIDType].
  rewrite Herr. fold limit offset.
  unfold Go.int_add. rewrite wrap64_small by (unfold Go.is_int; lia).
  rewrite length_take, length_drop.
  unfold Go.len in *.
  destruct (Z.ltb_spec (limit + offset) (Z.of_nat (length (chs c)))) as [Hlt|Hge].
  - split; [done|]. intros Hd.
    apply (f_equal length) in Hd. rewrite length_drop in Hd. simpl in Hd. lia.
  - split; [|done]. intros Hd. destruct Hd.
    apply drop_ge. lia.
Qed.

(** ** More on the code-host connection resolver *)

(** *** What the closure does when the store answers *)

Lemma closure_unfiltered (env : Env) (c : resolver) (n : Calls)
    (all : list CodeHost) (creds : list UserCredential) :
  ListCodeHosts env (codeHostCalls n) (opts c) = (all, None) ->
  UserCredentials_List env (credentialCalls n) (userID c) = (creds, None) ->
  onlyWithoutCredential c = false ->
  closure env (c, n)
  = paginate (with_credsByIDType (indexCreds creds ∅)
                (with_chsErr None (with_chs all c)),
              mkCalls (S (codeHostCalls n)) (S (credentialCalls n)) (repoCalls n)).
Proof.
  intros H1 H2 Hf.
  unfold closure, bind, getc, modify, ret, return_, call_ListCodeHosts,
    call_UserCredentials_List.
  cbn -[paginate indexCreds filterWithoutCredential with_chs with_chsErr
        with_credsByIDType].
  rewrite H1.
  cbn -[paginate indexCreds filterWithoutCredential with_chs with_chsErr
        with_credsByIDType].
  rewrite H2.
  cbn -[paginate indexCreds filterWithoutCredential with_chs with_chsErr
        with_credsByIDType].
  rewrite Hf. reflexivity.
Qed.

Lemma compute_fresh (env : Env) (c : resolver) (n : Calls) :
  once c = false ->
  compute env (c, n)
  = match closure env (c, n) with
    | (Panic msg, s') => (Panic msg, (with_once true (fst s'), snd s'))
    | (_, s') => (Val (cached (with_once true (fst s'))),
                  (with_once true (fst s'), snd s'))
    end.
Proof.
  intros Ho. unfold compute, bind, once_Do, getc, ret. cbn [fst]. rewrite Ho.
  by destruct (closure env (c, n)) as [[| |msg] s'].
Qed.

Lemma invoke_compute (env : Env) (m : method) (s : state) :
  invoke env m s
  = match compute env s with
    | (Val r, s') =>
        (Val (match m with
              | CallTotalCount => TotalCount_of r
              | CallPageInfo => PageInfo_of (limitOffset (fst s')) r
              | CallNodes => Nodes_of env r
              end), s')
    | (Return, s') => (Return, s')
    | (Panic msg, s') => (Panic msg, s')
    end.
Proof.
  destruct m; cbn [invoke]; unfold TotalCount, PageInfo, Nodes, bind, getc, ret;
    by destruct (compute env s) as [[| |msg] s'].
Qed.

Lemma int32_small (z : Z) : - 2 ^ 31 <= z < 2 ^ 31 -> int32 z = z.
Proof. intros H. unfold int32. rewrite Z.mod_small; lia. Qed.

Lemma invoke_fresh_unfiltered (env : Env) (rs : list Z) (uid : Z)
    (o : ListCodeHostsOpts) (lo : LimitOffset) (n : Calls)
    (all : list CodeHost) (creds : list UserCredential) (m : method) :
  ListCodeHosts env (codeHostCalls n) o = (all, None) ->
  UserCredentials_List env (credentialCalls n) uid = (creds, None) ->
  invoke env m (newResolver false rs uid o lo, n)
  = match paginate
            (with_credsByIDType (indexCreds creds ∅)
               (with_chsErr None (with_chs all (newResolver false rs uid o lo))),
             mkCalls (S (codeHostCalls n)) (S (credentialCalls n)) (repoCalls n))
    with
    | (Panic msg, s') => (Panic msg, (with_once true (fst s'), snd s'))
    | (_, s') => (Val (answer env m (with_once true (fst s'))),
                  (with_once true (fst s'), snd s'))
    end.
Proof.
  intros H1 H2.
  rewrite invoke_compute, compute_fresh by done.
  rewrite (closure_unfiltered env _ n all creds) by done.
  destruct (paginate _) as [[| |msg] s']; destruct m; reflexivity.
Qed.

(** With a positive limit and an offset that is not negative, a fresh
    resolver that does not filter answers as follows when the store
    answers: [TotalCount] is the number of all code hosts, [Nodes] has one
    node for each code host of [all[offset : min(offset+limit, len)]], in
    order, with the credential indexed under its (ID, type), and [PageInfo]
    reports a next page, with cursor [limit+offset], exactly when
    [limit+offset] is less than the number of all code hosts. *)
Theorem methods_with_limit (env : Env) (rs : list Z) (uid : Z)
    (o : ListCodeHostsOpts) (limit offset : Z) (n : Calls)
    (all : list CodeHost) (creds : list UserCredential) (m : method) :
  ListCodeHosts env (codeHostCalls n) o = (all, None) ->
  UserCredentials_List env (credentialCalls n) uid = (creds, None) ->
  0 < limit -> 0 <= offset -> limit + offset < 2 ^ 63 ->
  Go.len all < 2 ^ 31 ->
  fst (invoke env m (newResolver false rs uid o (mkLimitOffset limit offset), n))
  = Val
      match m with
      | CallTotalCount => TotalCountResponse (Go.len all) None
      | CallNodes =>
          NodesResponse
            (map (fun ch =>
                    mkCodeHostResolver (TypeToKind env (ExternalServiceType ch))
                      (ExternalServiceID ch)
                      (indexCreds creds ∅
                         !! (ExternalServiceID ch, ExternalServiceType ch)))
                 (take (Z.to_nat limit) (drop (Z.to_nat offset) all)))
            None
      | CallPageInfo =>
          PageInfoResponse
            (Some (if limit + offset <? Go.len all
                   then NextPageCursor (Go.Itoa (limit + offset))
                   else HasNextPage false))
            None
      end.
Proof.
  intros H1 H2 Hl Ho Hsum Hlen.
  rewrite (invoke_fresh_unfiltered env rs uid o _ n all creds) by done.
  set (c1 := with_credsByIDType _ _).
  set (n1 := mkCalls _ _ _).
  destruct (paginate_with_limit c1 n1) as [Hs Hp]; try done.
  { cbn. lia. }
  destruct (paginate (c1, n1)) as [r s'] eqn:E. cbn [fst snd] in Hs, Hp.
  subst s'. destruct r as [[]| |msg]; [| |by destruct (Hp msg)];
    cbn [fst]; f_equal; (destruct m; cbn;
      [ by rewrite int32_small by (unfold Go.len in *; lia)
      | unfold Go.int_add; rewrite wrap64_small by (unfold Go.is_int; lia);
        by destruct (limit + offset <? Go.len all)
      | reflexivity ]).
Qed.

Lemma methods_with_limit_witness :
  let github := mkCodeHost "github" "https://github.com/" in
  let gitlab := mkCodeHost "gitlab" "https://gitlab.com/" in
  let env :=
    mkEnv (fun _ _ => ([github; gitlab], None)) (fun _ _ => ([], None))
      (fun _ _ => ([], None)) (fun _ => inr "https") (fun t => t) in
  fst (invoke env CallPageInfo
         (newResolver false [] 1 [] (mkLimitOffset 1 0), mkCalls 0 0 0))
  = Val (PageInfoResponse (Some (NextPageCursor "1")) None).
Proof.
  intros github gitlab env.
  apply (methods_with_limit env [] 1 [] 1 0 (mkCalls 0 0 0) [github; gitlab] []
           CallPageInfo); try reflexivity; lia.
Defined.

Lemma paginate_no_limit (c : resolver) (n : Calls) :
  Limit (limitOffset c) <= 0 -> 0 <= Offset (limitOffset c) -> chsPage c = [] ->
  snd (paginate (c, n))
  = (with_chsPage (drop (Z.to_nat (Offset (limitOffset c))) (chs c)) c, n)
  /\ forall msg, fst (paginate (c, n)) <> Panic msg.
Proof.
  intros Hl Ho Hpage.
  unfold paginate, bind, getc, modify, return_, slice_of, ret, panic.
  cbn [fst snd].
  destruct (Z.leb_spec (Go.len (chs c)) (Offset (limitOffset c))) as [Hge|Hlt].
  { split; [|done]. cbn [snd].
    rewrite drop_ge by (unfold Go.len in Hge; lia).
    rewrite <- Hpage. by rewrite with_chsPage_same. }
  destruct (Z.leb_spec (Limit (limitOffset c)) 0) as [_|?]; [|lia].
  unfold Go.slice.
  destruct (Z.leb_spec 0 (Offset (limitOffset c))); [|lia].
  destruct (Z.leb_spec (Offset (limitOffset c)) (Go.len (chs c))); [|lia].
  rewrite Z.leb_refl. cbn [andb fst snd]. split; [|done].
  do 2 f_equal. apply take_ge. rewrite length_drop. unfold Go.len. lia.
Qed.

(** Without a limit ([Limit <= 0]) and with an offset that is not
    negative, [Nodes] of a fresh resolver that does not filter has one node
    for every code host from the offset on, and [TotalCount] is the number
    of all code hosts. *)
Theorem methods_without_limit (env : Env) (rs : list Z) (uid : Z)
    (o : ListCodeHostsOpts) (limit offset : Z) (n : Calls)
    (all : list CodeHost) (creds : list UserCredential) :
  ListCodeHosts env (codeHostCalls n) o = (all, None) ->
  UserCredentials_List env (credentialCalls n) uid = (creds, None) ->
  limit <= 0 -> 0 <= offset -> Go.len all < 2 ^ 31 ->
  fst (invoke env CallNodes
         (newResolver false rs uid o (mkLimitOffset limit offset), n))
  = Val (NodesResponse
           (map (fun ch =>
                   mkCodeHostResolver (TypeToKind env (ExternalServiceType ch))
                     (ExternalServiceID ch)
                     (indexCreds creds ∅
                        !! (ExternalServiceID ch, ExternalServiceType ch)))
                (drop (Z.to_nat offset) all))
           None)
  /\ fst (invoke env CallTotalCount
            (newResolver false rs uid o (mkLimitOffset limit offset), n))
     = Val (TotalCountResponse (Go.len all) None).
Proof.
  intros H1 H2 Hl Ho Hlen.
  rewrite !(invoke_fresh_unfiltered env rs uid o _ n all creds) by done.
  set (c1 := with_credsByIDType _ _).
  set (n1 := mkCalls _ _ _).
  destruct (paginate_no_limit c1 n1) as [Hs Hp]; try done.
  destruct (paginate (c1, n1)) as [r s'] eqn:E. cbn [fst snd] in Hs, Hp.
  subst s'.
  assert (Hi : int32 (Go.len all) = Go.len all).
  { apply int32_small. unfold Go.len in *. lia. }
  destruct r as [[]| |msg]; [| |by destruct (Hp msg)].
  - split; cbn [fst]; f_equal; cbn; by rewrite ?Hi.
  - split; cbn [fst]; f_equal; cbn; by rewrite ?Hi.
Qed.

Lemma methods_without_limit_witness :
  let github := mkCodeHost "github" "https://github.com/" in
  let gitlab := mkCodeHost "gitlab" "https://gitlab.com/" in
  let env :=
    mkEnv (fun _ _ => ([github; gitlab], None)) (fun _ _ => ([], None))
      (fun _ _ => ([], None)) (fun _ => inr "https") (fun t => t) in
  fst (invoke env CallNodes
         (newResolver false [] 1 [] (mkLimitOffset 0 1), mkCalls 0 0 0))
  = Val (NodesResponse [mkCodeHostResolver "gitlab" "https://gitlab.com/" None] None)
  /\ fst (invoke env CallTotalCount
            (newResolver false [] 1 [] (mkLimitOffset 0 1), mkCalls 0 0 0))
     = Val (TotalCountResponse 2 None).
Proof.
  intros github gitlab env.
  apply (methods_without_limit env [] 1 [] 0 1 (mkCalls 0 0 0)
           [github; gitlab] []); try reflexivity; lia.
Defined.

Lemma paginate_negative_offset (c : resolver) (n : Calls) :
  Offset (limitOffset c) < 0 -> paginate (c, n) = (Panic out_of_range, (c, n)).
Proof.
  intros Ho.
  unfold paginate, bind, getc, modify, return_, slice_of, ret, panic.
  cbn [fst snd].
  assert (0 <= Go.len (chs c)) by (unfold Go.len; lia).
  destruct (Z.leb_spec (Go.len (chs c)) (Offset (limitOffset c))); [lia|].
  assert (Hs : forall hi, Go.slice (chs c) (Offset (limitOffset c)) hi = None).
  { intros hi. unfold Go.slice.
    by destruct (Z.leb_spec 0 (Offset (limitOffset c))); [lia|]. }
  destruct (Limit (limitOffset c) <=? 0); by rewrite Hs.
Qed.

(** A negative offset makes the first call of any of the three methods
    panic on the slice expression, whatever the limit; the [Once] is done
    all the same, so that a later [Nodes] returns an empty page and no
    error. *)
Theorem methods_negative_offset (env : Env) (rs : list Z) (uid : Z)
    (o : ListCodeHostsOpts) (limit offset : Z) (n : Calls)
    (all : list CodeHost) (creds : list UserCredential) (m : method) :
  ListCodeHosts env (codeHostCalls n) o = (all, None) ->
  UserCredentials_List env (credentialCalls n) uid = (creds, None) ->
  offset < 0 ->
  fst (invoke_all env [m; CallNodes]
         (newResolver false rs uid o (mkLimitOffset limit offset), n))
  = [Panic out_of_range; Val (NodesResponse [] None)].
Proof.
  intros H1 H2 Ho. cbn [invoke_all].
  rewrite (invoke_fresh_unfiltered env rs uid o _ n all creds) by done.
  rewrite paginate_negative_offset by done.
  cbn [fst snd]. rewrite invoke_settled by done. reflexivity.
Qed.

Lemma methods_negative_offset_witness :
  let github := mkCodeHost "github" "https://github.com/" in
  let env :=
    mkEnv (fun _ _ => ([github], None)) (fun _ _ => ([], None))
      (fun _ _ => ([], None)) (fun _ => inr "https") (fun t => t) in
  fst (invoke_all env [CallTotalCount; CallNodes]
         (newResolver false [] 1 [] (mkLimitOffset 50 (-1)), mkCalls 0 0 0))
  = [Panic out_of_range; Val (NodesResponse [] None)].
Proof.
  intros github env.
  apply (methods_negative_offset env [] 1 [] 50 (-1) (mkCalls 0 0 0) [github] []
           CallTotalCount); reflexivity.
Defined.

(** *** The maps built by the closure *)

Lemma groupRepos_lookup (rs : list Repo) (m : gmap string (list (option Repo)))
    (sid : string) :
  groupRepos rs m !! sid
  = match List.filter (fun r => String.eqb (ServiceID r) sid) rs with
    | [] => m !! sid
    | r :: l => Some (default [None] (m !! sid) ++ map Some (r :: l))
    end.
Proof.
  revert m. induction rs as [|repo rs IH]; intros m; [done|].
  cbn [groupRepos List.filter]. rewrite IH. clear IH.
  set (m1 := match m !! ServiceID repo with
             | Some _ => m
             | None => <[ServiceID repo := replicate 1 None]> m
             end).
  assert (Hm1 : m1 !! ServiceID repo = Some (default [None] (m !! ServiceID repo))).
  { unfold m1. destruct (m !! ServiceID repo) as [l0|] eqn:E; [done|].
    by rewrite lookup_insert_eq. }
  rewrite Hm1. cbn [default].
  destruct (String.eqb_spec (ServiceID repo) sid) as [<-|Hne].
  - rewrite lookup_insert_eq. cbn [default].
    destruct (List.filter _ rs) as [|r l]; [done|].
    unfold id. by rewrite <- app_assoc.
  - rewrite lookup_insert_ne by done.
    assert (m1 !! sid = m !! sid) as ->; [|done].
    unfold m1. destruct (m !! ServiceID repo); [done|].
    by rewrite lookup_insert_ne.
Qed.

(** The slice stored for a service ID holds a nil pointer followed by the
    repos of that service, in the order of the list; a service ID that no
    repo has is not a key of the map. *)
Theorem reposByServiceIDs_lookup (rs : list Repo) (sid : string) :
  reposByServiceIDs rs !! sid
  = match List.filter (fun r => String.eqb (ServiceID r) sid) rs with
    | [] => None
    | r :: l => Some (None :: Some r :: map Some l)
    end.
Proof.
  unfold reposByServiceIDs. rewrite groupRepos_lookup, lookup_empty.
  by destruct (List.filter _ rs).
Qed.

Lemma indexCreds_lookup (creds : list UserCredential)
    (m : gmap idType UserCredential) (id ty : string) :
  indexCreds creds m !! (id, ty)
  = match last (List.filter
                  (fun c => String.eqb (cred_ExternalServiceID c) id
                            && String.eqb (cred_ExternalServiceType c) ty) creds)
    with
    | Some c => Some c
    | None => m !! (id, ty)
    end.
Proof.
  revert m. induction creds as [|cred creds IH]; intros m; [done|].
  cbn [indexCreds List.filter]. rewrite IH. clear IH.
  destruct (String.eqb_spec (cred_ExternalServiceID cred) id) as [<-|Hne];
    [destruct (String.eqb_spec (cred_ExternalServiceType cred) ty) as [<-|Hne]|];
    cbn [andb].
  - rewrite last_cons, lookup_insert_eq. by destruct (last _).
  - rewrite lookup_insert_ne; [done|]. congruence.
  - rewrite lookup_insert_ne; [done|]. congruence.
Qed.

(** The credential indexed under an (ID, type) is the last one in the
    store's list with that external service ID and type, and there is none
    when the list has no such credential. *)
Theorem credsByIDType_last_wins (creds : list UserCredential) (id ty : string) :
  indexCreds creds ∅ !! (id, ty)
  = last (List.filter
            (fun c => String.eqb (cred_ExternalServiceID c) id
                      && String.eqb (cred_ExternalServiceType c) ty) creds).
Proof.
  rewrite indexCreds_lookup, lookup_empty. by destruct (last _).
Qed.

(** *** Errors of the store, and the filter *)

Lemma existsb_filter {A} (f : A -> bool) (l : list A) :
  existsb f l = match List.filter f l with [] => false | _ :: _ => true end.
Proof.
  induction l as [|x l IH]; [done|]. cbn [existsb List.filter].
  by destruct (f x).
Qed.

(** The first code host already ends the loop of the filter: with no repo
    of its service the loop reports "no repos found", and otherwise it
    panics on the nil pointer that heads the slice of that service. *)
Lemma hostsLoop_first (env : Env) (creds : gmap idType UserCredential)
    (rs : list Repo) (ch : CodeHost) (rest acc : list CodeHost) :
  hostsLoop env creds (reposByServiceIDs rs) (ch :: rest) acc
  = if existsb (fun r => String.eqb (ServiceID r) (ExternalServiceID ch)) rs
    then LoopPanic nil_dereference
    else LoopErr "no repos found".
Proof.
  cbn [hostsLoop]. unfold reposByServiceIDs.
  rewrite groupRepos_lookup, lookup_empty, existsb_filter.
  by destruct (List.filter _ rs).
Qed.

Lemma closure_filtered (env : Env) (c : resolver) (n : Calls)
    (all : list CodeHost) (creds : list UserCredential) (found : list Repo) :
  ListCodeHosts env (codeHostCalls n) (opts c) = (all, None) ->
  UserCredentials_List env (credentialCalls n) (userID c) = (creds, None) ->
  Repos_List env (repoCalls n) (repos c) = (found, None) ->
  onlyWithoutCredential c = true ->
  let c1 := with_credsByIDType (indexCreds creds ∅)
              (with_chsErr None (with_chs all c)) in
  let n1 := mkCalls (S (codeHostCalls n)) (S (credentialCalls n))
              (S (repoCalls n)) in
  closure env (c, n)
  = match hostsLoop env (indexCreds creds ∅) (reposByServiceIDs found) all [] with
    | LoopErr err => (Return, (with_chsErr (Some err) c1, n1))
    | LoopPanic msg => (Panic msg, (c1, n1))
    | LoopDone l => paginate (with_chs l c1, n1)
    end.
Proof.
  intros H1 H2 H3 Hf c1 n1.
  unfold closure, filterWithoutCredential, bind, getc, modify, ret, return_,
    panic, call_ListCodeHosts, call_UserCredentials_List, call_Repos_List.
  cbn -[paginate indexCreds hostsLoop reposByServiceIDs with_chs with_chsErr
        with_credsByIDType].
  rewrite H1.
  cbn -[paginate indexCreds hostsLoop reposByServiceIDs with_chs with_chsErr
        with_credsByIDType].
  rewrite H2.
  cbn -[paginate indexCreds hostsLoop reposByServiceIDs with_chs with_chsErr
        with_credsByIDType].
  rewrite Hf.
  cbn -[paginate indexCreds hostsLoop reposByServiceIDs].
  rewrite H3.
  cbn -[paginate indexCreds hostsLoop reposByServiceIDs].
  by destruct (hostsLoop _ _ _ _ _).
Qed.

(** With [onlyWithoutCredential] set and at least one code host listed,
    the filter never gets to produce a list: the first call of a method
    panics on a nil pointer when some repo belongs to the service of the
    first code host, and otherwise returns the error "no repos found". *)
Theorem filter_never_succeeds (env : Env) (rs : list Z) (uid : Z)
    (o : ListCodeHostsOpts) (lo : LimitOffset) (n : Calls)
    (ch : CodeHost) (rest : list CodeHost) (creds : list UserCredential)
    (found : list Repo) (m : method) :
  ListCodeHosts env (codeHostCalls n) o = (ch :: rest, None) ->
  UserCredentials_List env (credentialCalls n) uid = (creds, None) ->
  Repos_List env (repoCalls n) rs = (found, None) ->
  fst (invoke env m (newResolver true rs uid o lo, n))
  = if existsb (fun r => String.eqb (ServiceID r) (ExternalServiceID ch)) found
    then Panic nil_dereference
    else Val match m with
             | CallTotalCount => TotalCountResponse 0 (Some "no repos found")
             | CallPageInfo => PageInfoResponse None (Some "no repos found")
             | CallNodes => NodesResponse [] (Some "no repos found")
             end.
Proof.
  intros H1 H2 H3.
  rewrite invoke_compute, compute_fresh by done.
  rewrite (closure_filtered env _ n (ch :: rest) creds found) by done.
  rewrite hostsLoop_first.
  destruct (existsb _ found); [reflexivity|].
  by destruct m.
Qed.

Lemma filter_never_succeeds_witness :
  let github := mkCodeHost "github" "https://github.com/" in
  let env :=
    mkEnv (fun _ _ => ([github], None)) (fun _ _ => ([], None))
      (fun _ _ => ([mkRepo 7 "https://gitlab.com/" ["https://gitlab.com/a/b"]], None))
      (fun _ => inr "https") (fun t => t) in
  fst (invoke env CallTotalCount
         (newResolver true [7] 1 [] (mkLimitOffset 50 0), mkCalls 0 0 0))
  = Val (TotalCountResponse 0 (Some "no repos found")).
Proof.
  intros github env.
  apply (filter_never_succeeds env [7] 1 [] (mkLimitOffset 50 0) (mkCalls 0 0 0)
           github [] []
           [mkRepo 7 "https://gitlab.com/" ["https://gitlab.com/a/b"]]
           CallTotalCount); reflexivity.
Defined.

(** An error of the store is what every method returns, with no result
    beside it: the error of listing the code hosts, else the error of
    listing the credentials, else (when filtering) the error of listing
    the repos. *)
Theorem store_error_propagates (env : Env) (c : resolver) (n : Calls)
    (e : string) (m : method) :
  once c = false ->
  snd (ListCodeHosts env (codeHostCalls n) (opts c)) = Some e
  \/ (snd (ListCodeHosts env (codeHostCalls n) (opts c)) = None
      /\ snd (UserCredentials_List env (credentialCalls n) (userID c)) = Some e)
  \/ (snd (ListCodeHosts env (codeHostCalls n) (opts c)) = None
      /\ snd (UserCredentials_List env (credentialCalls n) (userID c)) = None
      /\ onlyWithoutCredential c = true
      /\ snd (Repos_List env (repoCalls n) (repos c)) = Some e) ->
  fst (invoke env m (c, n))
  = Val match m with
        | CallTotalCount => TotalCountResponse 0 (Some e)
        | CallPageInfo => PageInfoResponse None (Some e)
        | CallNodes => NodesResponse [] (Some e)
        end.
Proof.
  intros Ho H.
  rewrite invoke_compute, compute_fresh by done.
  unfold closure, filterWithoutCredential, bind, getc, modify, ret, return_,
    panic, call_ListCodeHosts, call_UserCredentials_List, call_Repos_List.
  cbn -[paginate indexCreds hostsLoop reposByServiceIDs].
  destruct H as [H1|[[H1 H2]|(H1 & H2 & Hf & H3)]].
  - rewrite H1. by destruct m.
  - rewrite H1. cbn -[paginate indexCreds hostsLoop reposByServiceIDs].
    rewrite H2. by destruct m.
  - rewrite H1. cbn -[paginate indexCreds hostsLoop reposByServiceIDs].
    rewrite H2. cbn -[paginate indexCreds hostsLoop reposByServiceIDs].
    rewrite Hf. cbn -[paginate indexCreds hostsLoop reposByServiceIDs].
    rewrite H3. by destruct m.
Qed.

Lemma store_error_propagates_witness :
  let env :=
    mkEnv (fun _ _ => ([], None)) (fun _ _ => ([], Some "pq: connection refused"))
      (fun _ _ => ([], None)) (fun _ => inr "https") (fun t => t) in
  fst (invoke env CallNodes
         (newResolver false [] 1 [] (mkLimitOffset 50 0), mkCalls 0 0 0))
  = Val (NodesResponse [] (Some "pq: connection refused")).
Proof.
  intros env.
  apply (store_error_propagates env
           (newResolver false [] 1 [] (mkLimitOffset 50 0)) (mkCalls 0 0 0)
           "pq: connection refused" CallNodes); [reflexivity|].
  right. left. split; reflexivity.
Defined.

(** ** More on the character positions *)

Import StressFacts.

Lemma range_from_length (f : nat) (i : Z) (s : list byte) :
  (length (range_from f i s) <= f)%nat.
Proof.
  revert i s. induction f as [|f IH]; intros i s; [done|].
  destruct s as [|b s]; cbn [range_from]; [simpl; lia|].
  destruct (DecodeRune (b :: s)) as [r sz]. simpl. specialize (IH (i + Z.of_nat sz) (drop sz (b :: s))). lia.
Qed.

(** No file gets more than [maxPos] positions, and none more than it has
    bytes; an empty file gets none. *)
Theorem fileCharPos_bounded (contentsBytes : list byte) :
  (length (fileCharPos contentsBytes) <= Z.to_nat maxPos)%nat
  /\ (length (fileCharPos contentsBytes) <= length contentsBytes)%nat.
Proof.
  assert (H : forall k, is_Some (fileCharPos contentsBytes !! k) ->
                (k < Z.to_nat maxPos)%nat /\ (k < length contentsBytes)%nat).
  { intros k Hk. unfold fileCharPos in Hk.
    apply charPosLoop_defined in Hk as (i & r & Hr & Hall).
    pose proof (Hall k i r (Nat.le_refl k) Hr) as Hlt.
    unfold range_string in Hr.
    pose proof (range_from_lower _ _ _ _ _ _ Hr) as Hlow.
    apply lookup_lt_Some in Hr.
    pose proof (range_from_length (length contentsBytes) 0 contentsBytes).
    unfold maxPos in *. lia. }
  destruct (fileCharPos contentsBytes) as [|p ps] eqn:E using rev_ind.
  - simpl. unfold maxPos. lia.
  - clear IHps. rewrite length_app. simpl.
    destruct (H (length ps)) as [H1 H2]; [|lia].
    rewrite lookup_app_r by lia. rewrite Nat.sub_diag. by eexists.
Qed.

Lemma after_runes_step (h : list (Z * Z)) (line character i r : Z) :
  after_runes h line character ->
  after_runes (h ++ [(i, r)]) (if r =? 10 then line + 1 else line)
    (if r =? 10 then 0 else character + 1).
Proof.
  intros (before & after & -> & Hafter & Hbefore & -> & ->).
  destruct (Z.eqb_spec r 10) as [->|Hne].
  - exists ((before ++ after) ++ [(i, 10)]), []. repeat split.
    + by rewrite app_nil_r.
    + constructor.
    + right. by exists (before ++ after), i.
    + rewrite !List.filter_app, !length_app. cbn.
      assert (List.filter (fun ir : Z * Z => snd ir =? 10) after = []) as ->.
      { clear -Hafter. induction Hafter as [|[j q] l Hq _ IH]; [done|].
        cbn. simpl in Hq. apply Z.eqb_neq in Hq. by rewrite Hq. }
      simpl. lia.
  - exists before, (after ++ [(i, r)]). repeat split.
    + by rewrite app_assoc.
    + apply Forall_app. split; [done|]. by repeat constructor.
    + done.
    + rewrite length_app. simpl. lia.
Qed.

Lemma charPosLoop_after (rs h : list (Z * Z)) (line character : Z)
    (k : nat) (l c : Z) :
  after_runes h line character ->
  charPosLoop rs line character [] !! k = Some (l, c) ->
  after_runes (h ++ take k rs) l c.
Proof.
  revert h line character k.
  induction rs as [|[i r] rs IH]; intros h line character k Hh Hk; [done|].
  rewrite charPosLoop_cons in Hk.
  destruct (maxPos <=? i); [done|].
  destruct k as [|k]; simpl in Hk.
  - injection Hk as <- <-. by rewrite take_0, app_nil_r.
  - cbn [take]. rewrite cons_middle, app_assoc.
    eapply IH; [|exact Hk]. by apply after_runes_step.
Qed.

(** The k-th position of a file in closed form: its line is the number of
    line feeds among the first k runes of the file, and its character is
    the number of runes after the last of those line feeds. *)
Theorem fileCharPos_closed_form (contentsBytes : list byte) (k : nat)
    (line character : Z) :
  fileCharPos contentsBytes !! k = Some (line, character) ->
  after_runes (take k (range_string contentsBytes)) line character.
Proof.
  intros Hk. unfold fileCharPos in Hk.
  apply (charPosLoop_after _ [] 0 0 k line character) in Hk; [done|].
  exists [], []. repeat split; [constructor|by left].
Qed.

Lemma fileCharPos_closed_form_witness :
  after_runes
    (take 4 (range_string [x61; xc3; xa9; x0a; xe2; x82; xac; x62])) 1 1.
Proof.
  apply (fileCharPos_closed_form [x61; xc3; xa9; x0a; xe2; x82; xac; x62] 4 1 1).
  reflexivity.
Defined.

Lemma filesLoop_lookup (filenames : list string)
    (allFiles : gmap string (list byte)) (n : Z)
    (m : gmap string (list (Z * Z))) (path : string) :
  0 <= n ->
  filesLoop filenames allFiles n m !! path
  = if decide (path ∈ take (Z.to_nat n) filenames)
    then Some (fileCharPos (default [] (allFiles !! path)))
    else m !! path.
Proof.
  revert n m. induction filenames as [|f fs IH]; intros n m Hn.
  - rewrite take_nil. cbn [filesLoop].
    by rewrite decide_False by apply not_elem_of_nil.
  - cbn [filesLoop]. destruct (Z.ltb_spec (n - 1) 0) as [Hlt|Hge].
    + assert (n = 0) as -> by lia. cbn [Z.to_nat take].
      by rewrite decide_False by apply not_elem_of_nil.
    + rewrite IH by done.
      replace (Z.to_nat n) with (S (Z.to_nat (n - 1))) by lia. cbn [take].
      destruct (decide (path ∈ take (Z.to_nat (n - 1)) fs)) as [Hin|Hnin].
      * rewrite decide_True; [done|]. by right.
      * destruct (decide (path = f)) as [->|Hne].
        -- rewrite lookup_insert_eq. rewrite decide_True; [done|]. by left.
        -- rewrite lookup_insert_ne by done.
           rewrite decide_False; [done|].
           intros [?|?]%elem_of_cons; done.
Qed.

(** Positions are enumerated for the first [maxFiles] file names of the
    sorted list and for no other: each of those is mapped to the positions
    of its contents. *)
Theorem allFileCharPos_lookup (filenames : list string)
    (allFiles : gmap string (list byte)) (path : string) :
  allFileCharPos filenames allFiles !! path
  = if decide (path ∈ take 10 filenames)
    then Some (fileCharPos (default [] (allFiles !! path)))
    else None.
Proof.
  unfold allFileCharPos. rewrite filesLoop_lookup by (unfold maxFiles; lia).
  unfold maxFiles. by rewrite lookup_empty.
Qed.

Lemma HasPrefix_empty (s : string) : Go.HasPrefix s "" = true.
Proof. by destruct s. Qed.

(** The label of a sub-benchmark holds no slash: every "/" of host and
    path has become a "-", the length is the same, and a string without
    a slash is its own label. *)
Theorem label_without_slash (s : string) :
  Go.Contains (slashes_to_dashes s) "/" = false
  /\ String.length (slashes_to_dashes s) = String.length s
  /\ (Go.Contains s "/" = false -> slashes_to_dashes s = s).
Proof.
  induction s as [|c s (IH1 & IH2 & IH3)]; [done|].
  cbn [slashes_to_dashes Go.Contains Go.HasPrefix String.length].
  rewrite !HasPrefix_empty.
  destruct (Ascii.eqb_spec c "/") as [->|Hne].
  - change (Ascii.eqb "/" "-") with false.
    change (Ascii.eqb "/" "/") with true. cbn [orb].
    split; [exact IH1|]. split; [by rewrite IH2|]. discriminate.
  - assert (Ascii.eqb "/" c = false) as Hc.
    { apply Ascii.eqb_neq. congruence. }
    rewrite Hc. cbn [orb].
    split; [exact IH1|]. split; [by rewrite IH2|].
    intros H. by rewrite IH3.
Qed.

(** ** A whole iteration of the benchmark *)

Lemma op_inv_perm (st : opstate) (sent sent' : list Request) :
  op_inv st sent -> sent ≡ₚ sent' -> op_inv st sent'.
Proof.
  intros [Hlen Hmax Hloop Hret Huse Hnone Herr Hsent] Hp.
  constructor; try done. by rewrite <- Hp.
Qed.

Lemma filter_length_insert {A} (f : A -> bool) (l : list A) (j : nat) (t t' : A) :
  l !! j = Some t ->
  (length (List.filter f (<[j := t']> l)) + (if f t then 1 else 0)
   = length (List.filter f l) + (if f t' then 1 else 0))%nat.
Proof.
  revert j. induction l as [|x l IH]; intros j Hj; [done|].
  destruct j as [|j]; simpl in *.
  - injection Hj as ->. destruct (f t), (f t'); simpl; lia.
  - specialize (IH j Hj). destruct (f x); simpl; lia.
Qed.

Lemma flat_map_insert {A B} (g : A -> list B) (l : list A) (j : nat)
    (t t' : A) (out : list B) :
  l !! j = Some t -> g t' ≡ₚ g t ++ out ->
  flat_map g (<[j := t']> l) ≡ₚ flat_map g l ++ out.
Proof.
  revert j. induction l as [|x l IH]; intros j Hj Hg; [done|].
  destruct j as [|j]; simpl in *.
  - injection Hj as ->. rewrite Hg.
    rewrite <- !app_assoc. apply Permutation_app_head, Permutation_app_comm.
  - rewrite (IH j Hj Hg). by rewrite app_assoc.
Qed.

Lemma map_insert_same {A B} (h : A -> B) (l : list A) (j : nat) (t t' : A) :
  l !! j = Some t -> h t' = h t -> map h (<[j := t']> l) = map h l.
Proof.
  revert j. induction l as [|x l IH]; intros j Hj Hh; [done|].
  destruct j as [|j]; simpl in *.
  - injection Hj as ->. by rewrite Hh.
  - by rewrite (IH j Hj Hh).
Qed.

Lemma task_ok_init (root : URI) (path : string) (line character : Z) :
  task_ok root (mkTask path line character (op_init root path line character) false).
Proof.
  split; [|split]; [|done|done].
  unfold task_requests. cbn [t_op]. unfold op_init at 2 3.
  cbn [op_params op_gs]. rewrite issued_requests_none.
  apply op_inv_init.
Qed.

Lemma task_ok_step (root : URI) (path : string) (line character : Z)
    (op op' : opstate) (ev : event) (out : list Request) :
  task_ok root (mkTask path line character op false) ->
  op_step ev op = Some (op', out) ->
  task_ok root (mkTask path line character op' false)
  /\ task_requests (mkTask path line character op' false)
     ≡ₚ task_requests (mkTask path line character op false) ++ out.
Proof.
  intros (Hinv & Hp & _) Hs. cbn [t_op] in *.
  pose proof (op_inv_step ev op op' _ out Hinv Hs) as Hinv'.
  pose proof (inv_sent _ _ Hinv') as Hsent.
  apply op_step_params in Hs as [Hp' _].
  split; [|by symmetry].
  split; [|split]; cbn [t_op t_done].
  - eapply op_inv_perm; [exact Hinv'|exact Hsent].
  - rewrite Hp'. exact Hp.
  - done.
Qed.

Lemma iter_inv_init (root : URI) (mode : string)
    (positions : list (string * (Z * Z))) :
  iter_inv root mode positions (iter_init positions).
Proof. by constructor. Qed.

Lemma iter_inv_step (root : URI) (mode : string)
    (positions : list (string * (Z * Z))) (ev : ievent) (st st' : iterstate) :
  iter_inv root mode positions st -> iter_step root mode ev st = Some st' ->
  iter_inv root mode positions st'.
Proof.
  intros [Hpos Hst Htasks Hwg Hconn] Hstep.
  destruct st as [pc tasks wg conn log].
  cbn [it_pc it_tasks it_wg it_conn] in *.
  destruct ev as [reply|j ev|j]; cbn [iter_step] in Hstep.
  - (* the benchmark goroutine *)
    destruct pc as [ps|ps|[|[path [line character]] rest]| |err]; try done.
    + injection Hstep as <-. subst conn tasks.
      constructor; cbn [it_pc it_tasks it_wg it_conn]; try done.
      by exists [].
    + destruct reply; injection Hstep as <-;
        by constructor; cbn [it_pc it_tasks it_wg it_conn].
    + destruct (Nat.eqb_spec wg 0) as [->|]; [|done].
      injection Hstep as <-.
      by constructor; cbn [it_pc it_tasks it_wg it_conn].
    + injection Hstep as <-.
      constructor; cbn [it_pc it_tasks it_wg it_conn pending] in *.
      * rewrite map_app, <- app_assoc. exact Hpos.
      * done.
      * apply Forall_app. split; [done|]. constructor; [|done].
        apply task_ok_init.
      * rewrite List.filter_app, length_app. cbn. lia.
      * destruct Hconn as (queries & -> & Hq). exists queries. split; [done|].
        rewrite flat_map_app. cbn [flat_map].
        unfold task_requests at 2. cbn [t_op]. unfold op_init.
        cbn [op_params op_gs]. rewrite issued_requests_none.
        by rewrite !app_nil_r.
  - (* a step inside the call made by a position's goroutine *)
    destruct (tasks !! j) as [[path line character op [|]]|] eqn:Hj; try done.
    destruct (op_step ev op) as [[op' out]|] eqn:Hs; [|done].
    injection Hstep as <-.
    pose proof (Forall_lookup_1 _ _ _ _ Htasks Hj) as Hok.
    destruct (task_ok_step root _ _ _ _ _ _ _ Hok Hs) as [Hok' Hreq].
    assert (Hpc : match pc with
                  | IDial _ | IInitialize _ | IFatal _ => False
                  | _ => True
                  end).
    { destruct pc; try done; by rewrite Hst in Hj. }
    constructor; cbn [it_pc it_tasks it_wg it_conn].
    + destruct pc; try done;
        by rewrite (map_insert_same task_position tasks j _ _ Hj).
    + by destruct pc.
    + by apply Forall_insert.
    + pose proof (filter_length_insert (fun t => negb (t_done t)) tasks j _
                    (mkTask path line character op' false) Hj) as Hf.
      cbn in Hf. lia.
    + destruct pc; try done;
        (destruct Hconn as (queries & -> & Hq); exists (queries ++ out);
         split; [done|];
         by rewrite (flat_map_insert task_requests tasks j _ _ out Hj Hreq), Hq).
  - (* a position's goroutine reports and is done *)
    destruct (tasks !! j) as [[path line character op [|]]|] eqn:Hj; try done.
    destruct (op_pc op) as [k|res] eqn:Hres; [done|].
    injection Hstep as <-.
    pose proof (Forall_lookup_1 _ _ _ _ Htasks Hj) as (Hinv & Hp & _).
    cbn [t_op] in *.
    pose proof (filter_length_insert (fun t => negb (t_done t)) tasks j _
                  (mkTask path line character op true) Hj) as Hf.
    cbn in Hf.
    constructor; cbn [it_pc it_tasks it_wg it_conn].
    + destruct pc; try done;
        by rewrite (map_insert_same task_position tasks j _ _ Hj).
    + destruct pc; try done; first [by rewrite Hst in Hj | lia].
    + apply Forall_insert; [done|]. split; [done|]. split; [done|].
      intros _. by exists res.
    + lia.
    + destruct pc; try done;
        (destruct Hconn as (queries & -> & Hq); exists queries;
         split; [done|];
         by rewrite (flat_map_insert task_requests tasks j _ _ [] Hj),
              app_nil_r by (by rewrite app_nil_r)).
Qed.

Lemma iter_inv_run (root : URI) (mode : string)
    (positions : list (string * (Z * Z))) (sched : list ievent)
    (st st' : iterstate) :
  iter_inv root mode positions st -> iter_run root mode sched st = Some st' ->
  iter_inv root mode positions st'.
Proof.
  revert st. induction sched as [|ev sched IH]; intros st Hinv Hrun.
  - simpl in Hrun. by injection Hrun as <-.
  - simpl in Hrun.
    destruct (iter_step root mode ev st) as [st1|] eqn:Hs; [|done].
    eapply IH; [|exact Hrun]. by eapply iter_inv_step.
Qed.

Lemma filter_length_zero {A} (f : A -> bool) (l : list A) :
  length (List.filter f l) = 0%nat -> Forall (fun x => f x = false) l.
Proof.
  induction l as [|x l IH]; [constructor|]. cbn [List.filter].
  destruct (f x) eqn:E; [done|]. intros H. constructor; auto.
Qed.

Lemma task_requests_done (root : URI) (t : task) :
  task_ok root t -> t_done t = true ->
  task_requests t = position_requests root (task_position t).
Proof.
  intros (Hinv & Hp & Hd) Hdone. destruct (Hd Hdone) as [res Hres].
  destruct (inv_returned _ _ Hinv res Hres) as [_ Hall].
  unfold task_requests, position_requests. rewrite <- Hp.
  apply issued_requests_done; [|done].
  apply (inv_length _ _ Hinv).
Qed.

(** When an iteration has shut the idle servers down, the goroutine of
    every position is done, and the connection has carried "initialize"
    followed by the three queries of every position of the iteration,
    each query exactly once, in some order. *)
Theorem iteration_sends_every_query (root : URI) (mode : string)
    (positions : list (string * (Z * Z))) (sched : list ievent) (st : iterstate) :
  iter_run root mode sched (iter_init positions) = Some st ->
  it_pc st = IReaped ->
  Forall (fun t => t_done t = true) (it_tasks st)
  /\ exists queries,
       it_conn st = initialize_request root mode :: queries
       /\ queries ≡ₚ flat_map (position_requests root) positions.
Proof.
  intros Hrun Hpc.
  destruct (iter_inv_run root mode positions sched _ st
              (iter_inv_init root mode positions) Hrun)
    as [Hpos Hst Htasks Hwg Hconn].
  rewrite Hpc in Hpos, Hst, Hconn. cbn [pending] in Hpos.
  rewrite app_nil_r in Hpos. rewrite Hst in Hwg.
  assert (Hdone : Forall (fun t => t_done t = true) (it_tasks st)).
  { symmetry in Hwg. apply filter_length_zero in Hwg.
    eapply Forall_impl; [exact Hwg|]. intros t Ht. simpl in Ht.
    by destruct (t_done t). }
  split; [exact Hdone|].
  destruct Hconn as (queries & Hc & Hq). exists queries. split; [done|].
  rewrite Hq, <- Hpos. clear -Htasks Hdone.
  induction (it_tasks st) as [|t ts IH]; [done|].
  apply Forall_cons in Htasks as [Ht Hts].
  apply Forall_cons in Hdone as [Hd Hds].
  cbn [flat_map map]. rewrite (task_requests_done root t Ht Hd).
  by rewrite (IH Hts Hds).
Qed.

Lemma iteration_sends_every_query_witness :
  exists st,
    Forall (fun t => t_done t = true) (it_tasks st)
    /\ exists queries,
         it_conn st
         = initialize_request (mkURI "git" "github.com" "/gorilla/mux" "0a192a1" "")
             "go" :: queries
         /\ queries
            ≡ₚ flat_map
                 (position_requests
                    (mkURI "git" "github.com" "/gorilla/mux" "0a192a1" ""))
                 [("mux.go", (0, 0)); ("mux.go", (0, 1))].
Proof.
  eexists.
  apply (iteration_sends_every_query
           (mkURI "git" "github.com" "/gorilla/mux" "0a192a1" "") "go"
           [("mux.go", (0, 0)); ("mux.go", (0, 1))]
           ([IMain None; IMain None; IMain None; IMain None]
              ++ map (ITask 1) (sequential None None None)
              ++ map (ITask 0) (sequential (Some "invalid location: 0:0") None None)
              ++ [IReport 0; IReport 1; IMain None])).
  - vm_compute. reflexivity.
  - reflexivity.
Defined.

(** ** The enterprise setup hook *)

Import Frontend.

Lemma initLoop_app {Services : Type}
    (fns1 fns2 : list (string * @initFunction Services)) (services : Services) :
  initLoop (fns1 ++ fns2) services
  = match initLoop fns1 services with
    | inl msg => inl msg
    | inr services' => initLoop fns2 services'
    end.
Proof.
  revert services. induction fns1 as [|[name fn] fns1 IH]; intros services; [done|].
  cbn [app initLoop]. destruct (fn services) as [services' [e|]]; [done|].
  apply IH.
Qed.

(** The first initialiser that fails ends the hook: when the initialisers
    before it, in the order of the iteration, have succeeded, the process
    is stopped with "failed to initialize NAME: ERROR", whatever the
    initialisers after it would do; they are not run. *)
Theorem enterpriseSetupHook_first_failure {Services : Type}
    (DEBUG : string) (defaults s1 s2 : Services)
    (before after : list (string * @initFunction Services))
    (name : string) (fn : @initFunction Services) (e : string) :
  initLoop before defaults = inr s1 ->
  fn s1 = (s2, Some e) ->
  enterpriseSetupHook DEBUG defaults (before ++ (name, fn) :: after)
  = HookFatal
      ((if default false (ParseBool DEBUG) then ["enterprise edition"] else [])
         ++ ["failed to initialize " +:+ name +:+ ": " +:+ e]).
Proof.
  intros Hb Hf. unfold enterpriseSetupHook.
  rewrite initLoop_app, Hb. cbn [initLoop]. by rewrite Hf.
Qed.

Lemma enterpriseSetupHook_first_failure_witness :
  enterpriseSetupHook "true" 0%nat
    [("authz", fun n => (S n, None));
     ("licensing", fun n => (n, Some "license expired"));
     ("executor", fun n => (S n, None))]
  = HookFatal ["enterprise edition";
               "failed to initialize licensing: license expired"].
Proof.
  apply (enterpriseSetupHook_first_failure "true" 0%nat 1%nat 1%nat
           [("authz", fun n => (S n, None))]
           [("executor", fun n => (S n, None))]
           "licensing" (fun n => (n, Some "license expired")) "license expired");
    reflexivity.
Defined.

(** ** An iteration is never stuck, and what it logs *)

Lemma filter_length_positive {A} (f : A -> bool) (l : list A) :
  (0 < length (List.filter f l))%nat -> exists j x, l !! j = Some x /\ f x = true.
Proof.
  induction l as [|x l IH]; [simpl; lia|]. cbn [List.filter].
  destruct (f x) eqn:E.
  - intros _. by exists 0%nat, x.
  - intros H. destruct (IH H) as (j & y & Hj & Hy). by exists (S j), y.
Qed.

Lemma iter_progress (root : URI) (mode : string)
    (positions : list (string * (Z * Z))) (st : iterstate) :
  iter_inv root mode positions st ->
  it_pc st = IReaped \/ (exists err, it_pc st = IFatal err)
  \/ exists ev, is_Some (iter_step root mode ev st).
Proof.
  intros [Hpos Hst Htasks Hwg Hconn].
  destruct st as [pc tasks wg conn log].
  cbn [it_pc it_tasks it_wg it_conn] in *.
  destruct pc as [ps|ps|[|[path [line character]] rest]| |err];
    [ right; right; exists (IMain None); by eexists
    | right; right; exists (IMain None); by eexists
    | | right; right; exists (IMain None); by eexists
    | by left | right; left; by eexists ].
  right; right. destruct (Nat.eqb_spec wg 0) as [->|Hne].
  { exists (IMain None). by eexists. }
  destruct (filter_length_positive (fun t => negb (t_done t)) tasks)
    as (j & [path line character op done] & Hj & Hd); [lia|].
  cbn in Hd. destruct done; [done|].
  pose proof (Forall_lookup_1 _ _ _ _ Htasks Hj) as (Hinv & _ & _).
  cbn [t_op] in Hinv.
  destruct (op_pc op) as [k|res] eqn:Hres.
  - destruct (op_progress op _ Hinv) as [ev [[op' out] Hs]].
    { intros res. by rewrite Hres. }
    exists (ITask j ev). cbn [iter_step]. rewrite Hj, Hs. by eexists.
  - exists (IReport j). cbn [iter_step]. rewrite Hj, Hres. by eexists.
Qed.

(** An iteration is never stuck: until it has shut the idle servers down
    or has been stopped by a failed handshake, some goroutine can move
    (the wait for the goroutines of the positions always ends, provided
    that the calls are answered). *)
Theorem iteration_never_stuck (root : URI) (mode : string)
    (positions : list (string * (Z * Z))) (sched : list ievent) (st : iterstate) :
  iter_run root mode sched (iter_init positions) = Some st ->
  it_pc st = IReaped \/ (exists err, it_pc st = IFatal err)
  \/ exists ev, is_Some (iter_step root mode ev st).
Proof.
  intros Hrun. apply (iter_progress root mode positions).
  eapply iter_inv_run; [|exact Hrun]. apply iter_inv_init.
Qed.

Lemma iteration_never_stuck_witness :
  exists st,
    iter_run (mkURI "git" "github.com" "/gorilla/mux" "0a192a1" "") "go"
      ([IMain None; IMain None; IMain None]
         ++ map (ITask 0) [EvMain; EvMain; EvCall 1])
      (iter_init [("mux.go", (0, 0))]) = Some st
    /\ (it_pc st = IReaped \/ (exists err, it_pc st = IFatal err)
        \/ exists ev,
             is_Some
               (iter_step (mkURI "git" "github.com" "/gorilla/mux" "0a192a1" "")
                  "go" ev st)).
Proof.
  eexists. split; [vm_compute; reflexivity|].
  apply (iteration_never_stuck
           (mkURI "git" "github.com" "/gorilla/mux" "0a192a1" "") "go"
           [("mux.go", (0, 0))]
           ([IMain None; IMain None; IMain None]
              ++ map (ITask 0) [EvMain; EvMain; EvCall 1])).
  vm_compute. reflexivity.
Defined.




(** ** The repository name of a clone URL *)

Lemma length_append (p q : string) :
  String.length (p +:+ q) = (String.length p + String.length q)%nat.
Proof.
  induction p as [|c p IH]; [done|].
  rewrite append_String. cbn [String.length]. by rewrite IH.
Qed.

Lemma substring_whole (q : string) : String.substring 0 (String.length q) q = q.
Proof.
  induction q as [|c q IH]; [done|].
  cbn [String.length String.substring]. by rewrite IH.
Qed.

Lemma substring_append_l (p q : string) :
  String.substring 0 (String.length p) (p +:+ q) = p.
Proof.
  induction p as [|c p IH]; [by destruct q|].
  rewrite append_String. cbn [String.length String.substring]. by rewrite IH.
Qed.

Lemma substring_append_r (p q : string) (m : nat) :
  String.substring (String.length p) m (p +:+ q) = String.substring 0 m q.
Proof.
  induction p as [|c p IH]; [done|].
  rewrite append_String. cbn [String.length String.substring]. exact IH.
Qed.

Lemma TrimSuffix_append (p suffix : string) : TrimSuffix (p +:+ suffix) suffix = p.
Proof.
  unfold TrimSuffix, HasSuffix. rewrite length_append.
  replace (String.length p + String.length suffix - String.length suffix)%nat
    with (String.length p) by lia.
  rewrite substring_append_r, substring_whole, String.eqb_refl.
  destruct (Nat.leb_spec (String.length suffix)
              (String.length p + String.length suffix)); [|lia].
  cbn [andb]. apply substring_append_l.
Qed.

(** The name handed to [vfsutil.NewGitHubRepoVFS] is host and path of
    the clone URL with one ".git" taken off the end of the path: a path
    that ends in ".git" loses exactly that suffix, and any other path is
    kept whole. *)
Theorem fullName_drops_git_suffix (host p : string) :
  fullName host (p +:+ ".git") = host +:+ p
  /\ (HasSuffix p ".git" = false -> fullName host p = host +:+ p).
Proof.
  unfold fullName. split.
  - by rewrite TrimSuffix_append.
  - intros H. unfold TrimSuffix. by rewrite H.
Qed.

Example fullName_of_clone_url :
  fullName "github.com" "/gorilla/mux.git" = "github.com/gorilla/mux".
Proof. reflexivity. Qed.

(** ** Which store operations a call reaches *)

Lemma compute_calls_cases (env : Env) (s : state) :
  snd (snd (compute env s))
  = if once (fst s) then snd s else snd (snd (closure env s)).
Proof.
  unfold compute, bind, once_Do, getc, ret.
  destruct (once (fst s)); [done|].
  by destruct (closure env s) as [[| |msg] s'].
Qed.

Lemma invoke_calls_compute (env : Env) (m : method) (s : state) :
  snd (snd (invoke env m s)) = snd (snd (compute env s)).
Proof.
  rewrite invoke_compute. by destruct (compute env s) as [[| |msg] s'].
Qed.

Lemma closure_skips_repos (env : Env) (c : resolver) (n : Calls) :
  onlyWithoutCredential c = false ->
  repoCalls (snd (snd (closure env (c, n)))) = repoCalls n.
Proof.
  intros Hf.
  unfold closure, paginate, slice_of, bind, getc, modify, return_, ret, panic,
    call_ListCodeHosts, call_UserCredentials_List.
  cbn [fst snd]. rewrite Hf.
  repeat match goal with
         | |- context [match ?x with _ => _ end] =>
             lazymatch x with
             | context [match _ with _ => _ end] => fail
             | _ => destruct x; cbn [fst snd]
             end
         end; reflexivity.
Qed.

Lemma closure_stops_at_code_hosts (env : Env) (c : resolver) (n : Calls) (e : string) :
  snd (ListCodeHosts env (codeHostCalls n) (opts c)) = Some e ->
  snd (snd (closure env (c, n)))
  = mkCalls (S (codeHostCalls n)) (credentialCalls n) (repoCalls n).
Proof.
  intros He.
  unfold closure, bind, getc, modify, return_, ret, call_ListCodeHosts.
  cbn [fst snd]. by rewrite He.
Qed.

(** A call of a method never lists the repos unless the resolver filters,
    lists neither credentials nor repos when listing the code hosts has
    failed, and asks the store nothing when the [Once] is already done. *)
Theorem store_calls_reached (env : Env) (c : resolver) (n : Calls) (m : method) :
  let n' := snd (snd (invoke env m (c, n))) in
  (onlyWithoutCredential c = false -> repoCalls n' = repoCalls n)
  /\ (once c = false ->
      forall e, snd (ListCodeHosts env (codeHostCalls n) (opts c)) = Some e ->
      n' = mkCalls (S (codeHostCalls n)) (credentialCalls n) (repoCalls n))
  /\ (once c = true -> n' = n).
Proof.
  intros n'. unfold n'. rewrite invoke_calls_compute, compute_calls_cases.
  cbn [fst snd]. split; [|split].
  - intros Hf. destruct (once c); [done|]. by apply closure_skips_repos.
  - intros -> e He. by apply (closure_stops_at_code_hosts env c n e).
  - by intros ->.
Qed.
